(** * The connection pool of apnsclient's IO backends

    A shallow embedding of [apnsclient/backends/__init__.py]: the classes
    [BaseBackend] (a pool of idle connections per [(address, certificate)]
    pair) and [BaseConnection] (last-use time stamp of one connection).

    Python objects are mutable and shared by reference, so a connection is
    an identity ([conn]) into a store of connection objects ([heap]); the
    pool's dict holds lists of such identities.  [datetime.datetime] and
    [datetime.timedelta] values are integers (microseconds, their
    resolution).  The clock is part of the world: [datetime.now()] reads
    it, a call of the pool does not advance it, and time passes between
    calls.  Every method runs to completion before the next one
    starts: the lock taken in [try: ... finally:] is released on every
    path and leaves no trace in the sequential state, so it is not part of
    the state; the part on the lock gives the methods again with the lock
    and shows that it can be left out.  Finalizers ([BaseConnection.__del__]) run at the garbage
    collector's discretion and are not modelled. *)

From stdpp Require Import gmap list functions.

Local Open Scope Z_scope.

(** Identity of a connection object. *)
Definition conn : Type := nat.

(** Exceptions that can leave the pool's methods. *)
Inductive exception : Type :=
  | KeyError
  | NotImplementedError
  | SocketError (errno : Z).

Inductive outcome (A : Type) : Type :=
  | Return (a : A)
  | Raise (e : exception).
Arguments Return {A} a.
Arguments Raise {A} e.

(** Calls received by connection objects, in program order.  The log is
    ghost state: it records that [touch] or [close] was invoked, also when
    the call changes nothing. *)
Inductive call : Type :=
  | Touch (con : conn)
  | Close (con : conn).

Section Backend.

Context {Address Certificate Timeout : Type}.
Context `{Countable Address} `{Countable Certificate}.

(** ** BaseConnection *)

(** Modelled from the spec: [closed()] and [close()] raise
    [NotImplementedError] in [BaseConnection] and are implemented by the
    transports, which are not part of this file.  Following their
    docstrings ("True if connection is closed via explicit close call",
    "Does nothing if connection is already closed", "set closed state
    True") the object carries an explicit flag [is_closed]. *)
Record BaseConnection : Type := mkConnection {
  address : Address;
  certificate : Certificate;
  last_use : Z;
  is_closed : bool
}.

(** The connection objects, the wall clock read by [datetime.now()] and the
    log of calls. *)
Record world : Type := mkWorld {
  heap : conn → BaseConnection;
  now : Z;
  calls : list call
}.

(** [BaseConnection.touch]: [self.last_use = datetime.datetime.now()]. *)
Definition touch (con : conn) (w : world) : world :=
  {| heap := <[con := {| address := address (heap w con);
                         certificate := certificate (heap w con);
                         last_use := now w;
                         is_closed := is_closed (heap w con) |}]> (heap w);
     now := now w;
     calls := calls w ++ [Touch con] |}.

(** [BaseConnection.__init__]: stores the endpoint and calls [touch]. *)
Definition BaseConnection_init (con : conn) (a : Address) (c : Certificate)
    (w : world) : world :=
  touch con
    {| heap := <[con := {| address := a; certificate := c;
                           last_use := 0; is_closed := false |}]> (heap w);
       now := now w;
       calls := calls w |}.

(** [BaseConnection.is_outdated]:
    [return (datetime.datetime.now() - self.last_use) > delta]. *)
Definition is_outdated (con : conn) (delta : Z) (w : world) : bool * world :=
  (now w - last_use (heap w con) >? delta, w).

(** [closed()], see [BaseConnection]. *)
Definition closed (con : conn) (w : world) : bool :=
  is_closed (heap w con).

(** [close()], see [BaseConnection]. *)
Definition close (con : conn) (w : world) : world :=
  {| heap := if closed con w then heap w
             else <[con := {| address := address (heap w con);
                              certificate := certificate (heap w con);
                              last_use := last_use (heap w con);
                              is_closed := true |}]> (heap w);
     now := now w;
     calls := calls w ++ [Close con] |}.

(** ** BaseBackend *)

Record BaseBackend : Type := mkBackend {
  pool_size : option Z;
  use_cache_for_reconnects : bool;
  _connections : gmap (Address * Certificate) (list conn)
}.

Definition DEFAULT_POOL_SIZE : Z := 5.

(** [BaseBackend.__init__]. *)
Definition BaseBackend_init (pool_size : option Z)
    (use_cache_for_reconnects : bool) : BaseBackend :=
  {| pool_size := pool_size;
     use_cache_for_reconnects := use_cache_for_reconnects;
     _connections := ∅ |}.

(** Assignment to [self._connections]. *)
Definition with_connections (m : gmap (Address * Certificate) (list conn))
    (self : BaseBackend) : BaseBackend :=
  {| pool_size := pool_size self;
     use_cache_for_reconnects := use_cache_for_reconnects self;
     _connections := m |}.

(** [BaseBackend.get_new_connection] as written: [raise NotImplementedError]. *)
Definition BaseBackend_get_new_connection (address : Address)
    (certificate : Certificate) (timeout : option Timeout) (w : world)
    : outcome conn * world :=
  (Raise NotImplementedError, w).

(** A backend that opens connection object [con] unless the transport fails
    with [err]: the constructor [BaseConnection.__init__] runs on success. *)
Definition open_connection (con : conn) (err : option Z) (address : Address)
    (certificate : Certificate) (timeout : option Timeout) (w : world)
    : outcome conn * world :=
  match err with
  | Some errno => (Raise (SocketError errno), w)
  | None => (Return con, BaseConnection_init con address certificate w)
  end.

(** The method is overridden by the concrete backends; the pool calls
    whatever the instance provides.  It opens a transport session and
    constructs a connection object: it acts on the world of connections,
    not on the pool's bookkeeping. *)
Variable get_new_connection :
  Address → Certificate → option Timeout → world → outcome conn * world.

(** The loop of [get_cached_connection]:
    [while pool: con = pool.pop(0); if not con.closed(): ...].
    Returns the live connection found, if any, and what is left of the
    list. *)
Fixpoint pop_live (pool : list conn) (w : world) : option conn * list conn :=
  match pool with
  | [] => (None, [])
  | con :: pool' =>
      if closed con w then pop_live pool' w else (Some con, pool')
  end.

Definition get_cached_connection (self : BaseBackend) (address : Address)
    (certificate : Certificate) (timeout : option Timeout) (w : world)
    : outcome conn * BaseBackend * world :=
  let key := (address, certificate) in
  match _connections self !! key with
  | Some pool =>
      (* [pool] is the list object held by the dict: popping shortens it
         in place. *)
      match pop_live pool w with
      | (Some con, pool') =>
          (Return con, with_connections (<[key := pool']> (_connections self)) self,
           touch con w)
      | (None, pool') =>
          let '(r, w') := get_new_connection address certificate timeout w in
          (r, with_connections (<[key := pool']> (_connections self)) self, w')
      end
  | None =>
      let '(r, w') := get_new_connection address certificate timeout w in
      (r, self, w')
  end.

(** [self.pool_size is None or self.pool_size > 0]. *)
Definition pooling_enabled (self : BaseBackend) : bool :=
  match pool_size self with
  | None => true
  | Some n => n >? 0
  end.

(** [self.pool_size is None or len(pool) < self.pool_size]. *)
Definition has_room (self : BaseBackend) (pool : list conn) : bool :=
  match pool_size self with
  | None => true
  | Some n => Z.of_nat (length pool) <? n
  end.

(** [dict.setdefault(key, [])]: the list bound to [key], binding it to a new
    empty list first when it is absent. *)
Definition setdefault (key : Address * Certificate)
    (m : gmap (Address * Certificate) (list conn))
    : list conn * gmap (Address * Certificate) (list conn) :=
  match m !! key with
  | Some pool => (pool, m)
  | None => ([], <[key := []]> m)
  end.

(** [(connection.address, connection.certificate)]. *)
Definition key_of (connection : conn) (w : world) : Address * Certificate :=
  (address (heap w connection), certificate (heap w connection)).

Definition release (self : BaseBackend) (connection : conn) (w : world)
    : BaseBackend * world :=
  if negb (closed connection w) then
    if pooling_enabled self then
      let key := key_of connection w in
      let '(pool, m) := setdefault key (_connections self) in
      if has_room self pool then
        (with_connections (<[key := pool ++ [connection]]> m) self,
         touch connection w)
      else
        (with_connections m self, close connection w)
    else
      (self, close connection w)
  else
    (self, w).

(** The inner loop of [outdate] over one idle list, [new_pool] being the
    list built so far. *)
Fixpoint sweep (delta : Z) (pool new_pool : list conn) (w : world)
    : list conn * world :=
  match pool with
  | [] => (new_pool, w)
  | con :: pool' =>
      if negb (closed con w) then
        let '(outdated, w1) := is_outdated con delta w in
        if negb outdated then sweep delta pool' (new_pool ++ [con]) w1
        else sweep delta pool' new_pool (close con w1)
      else sweep delta pool' new_pool w
  end.

(** The outer loop of [outdate] over the snapshot
    [list(six.iteritems(self._connections))].  [del d[key]] raises
    [KeyError] when [key] is not bound. *)
Fixpoint outdate_items (delta : Z) (items : list (Address * Certificate * list conn))
    (self : BaseBackend) (w : world) : outcome unit * BaseBackend * world :=
  match items with
  | [] => (Return tt, self, w)
  | (key, pool) :: items' =>
      let '(new_pool, w1) := sweep delta pool [] w in
      match new_pool with
      | _ :: _ =>
          outdate_items delta items'
            (with_connections (<[key := new_pool]> (_connections self)) self) w1
      | [] =>
          match _connections self !! key with
          | Some _ =>
              outdate_items delta items'
                (with_connections (delete key (_connections self)) self) w1
          | None => (Raise KeyError, self, w1)
          end
      end
  end.

(** The dict is traversed in the order of [map_to_list]. *)
Definition outdate (self : BaseBackend) (delta : Z) (w : world)
    : outcome unit * BaseBackend * world :=
  outdate_items delta (map_to_list (_connections self)) self w.

(** [BaseBackend.__del__]: [self.outdate(datetime.timedelta())]. *)
Definition BaseBackend_del (self : BaseBackend) (w : world)
    : outcome unit * BaseBackend * world :=
  outdate self 0 w.

(** ** Sequences of calls *)

(** What a client and its surroundings can do between two calls of the
    pool: call one of its three methods, or change the world (time passes,
    a peer or the client closes a connection, a connection is used). *)
Inductive op : Type :=
  | Acquire (address : Address) (certificate : Certificate)
            (timeout : option Timeout)
  | Release (connection : conn)
  | Outdate (delta : Z)
  | Environment (f : world → world).

Definition step (st : BaseBackend * world) (o : op) : BaseBackend * world :=
  match o with
  | Acquire a c t =>
      let '(_, self', w') := get_cached_connection st.1 a c t st.2 in (self', w')
  | Release con => release st.1 con st.2
  | Outdate delta =>
      let '(_, self', w') := outdate st.1 delta st.2 in (self', w')
  | Environment f => (st.1, f st.2)
  end.

Definition run (ops : list op) (st : BaseBackend * world) : BaseBackend * world :=
  foldl step st ops.

(** A world for examples: the clock reads [t]; every connection object
    belongs to the endpoint [(a, c)], is not closed and was last used at
    time 0; no call was made yet. *)
Definition all_open (a : Address) (c : Certificate) (t : Z) : world :=
  {| heap := λ _, {| address := a; certificate := c;
                     last_use := 0; is_closed := false |};
     now := t;
     calls := [] |}.

(** ** Vocabulary of the statements *)

(** A connection is fresh when it neither reports closed nor is outdated. *)
Definition fresh (delta : Z) (w : world) (con : conn) : bool :=
  negb (closed con w) && negb (is_outdated con delta w).1.

(** The fresh connections of an idle list, in the order of the list; no
    list at all when none is fresh. *)
Definition pruned (delta : Z) (w : world) (pool : list conn)
    : option (list conn) :=
  match filter (λ c, fresh delta w c = true) pool with
  | [] => None
  | new_pool => Some new_pool
  end.

(** [con] is in the idle list of some key. *)
Definition idle (self : BaseBackend) (con : conn) : Prop :=
  ∃ key pool, _connections self !! key = Some pool ∧ con ∈ pool.

(** The world [w] can be reached from [w0] by sweeping the connections
    [seen]: the clock, the endpoints and the time stamps are those of [w0],
    a connection is closed when it was closed or is an outdated one of
    [seen], and the calls added are the [close] of the outdated ones that
    were not closed. *)
Definition swept (delta : Z) (w0 : world) (seen : list conn) (w : world)
    : Prop :=
  now w = now w0 ∧
  (∀ c, last_use (heap w c) = last_use (heap w0 c)) ∧
  (∀ c, key_of c w = key_of c w0) ∧
  (∀ c, closed c w = true ↔
        closed c w0 = true ∨ (c ∈ seen ∧ (is_outdated c delta w0).1 = true)) ∧
  ∃ new, calls w = calls w0 ++ new ∧
    ∀ ev, ev ∈ new ↔
          ∃ c, ev = Close c ∧ c ∈ seen ∧ closed c w0 = false
               ∧ (is_outdated c delta w0).1 = true.

(** No idle list holds more than [n] connections. *)
Definition bounded (n : Z) (self : BaseBackend) : Prop :=
  ∀ key pool, _connections self !! key = Some pool → Z.of_nat (length pool) ≤ n.

(** * Properties *)

Implicit Types (self : BaseBackend) (w : world) (con c : conn).
Implicit Types (pool dead rest : list conn) (delta : Z).
Implicit Types (key : Address * Certificate).

(** ** Connections *)

Lemma closed_touch c con w : closed c (touch con w) = closed c w.
Proof.
  unfold closed, touch; simpl.
  destruct (decide (con = c)) as [-> |Hne].
  - by rewrite fn_lookup_insert.
  - by rewrite fn_lookup_insert_ne.
Qed.

Lemma key_of_touch c con w : key_of c (touch con w) = key_of c w.
Proof.
  unfold key_of, touch; simpl.
  destruct (decide (con = c)) as [-> |Hne].
  - by rewrite fn_lookup_insert.
  - by rewrite fn_lookup_insert_ne.
Qed.

Lemma last_use_touch c con w :
  last_use (heap (touch con w) c)
  = if decide (c = con) then now w else last_use (heap w c).
Proof.
  unfold touch; simpl. case_decide as Hc.
  - subst. by rewrite fn_lookup_insert.
  - by rewrite fn_lookup_insert_ne.
Qed.

Lemma closed_close c con w :
  closed c (close con w) = if decide (c = con) then true else closed c w.
Proof.
  unfold close, closed at 1; simpl.
  destruct (closed con w) eqn:Hcon.
  - case_decide; by subst.
  - case_decide as Hc.
    + subst. by rewrite fn_lookup_insert.
    + by rewrite fn_lookup_insert_ne.
Qed.

Lemma last_use_close c con w :
  last_use (heap (close con w) c) = last_use (heap w c).
Proof.
  unfold close; simpl. destruct (closed con w); [done|].
  destruct (decide (con = c)) as [-> |Hne].
  - by rewrite fn_lookup_insert.
  - by rewrite fn_lookup_insert_ne.
Qed.

Lemma key_of_close c con w : key_of c (close con w) = key_of c w.
Proof.
  unfold key_of, close; simpl. destruct (closed con w); [done|].
  destruct (decide (con = c)) as [-> |Hne].
  - by rewrite fn_lookup_insert.
  - by rewrite fn_lookup_insert_ne.
Qed.

Lemma with_connections_same self : with_connections (_connections self) self = self.
Proof. by destruct self. Qed.

(** C8.  [is_outdated] answers whether strictly more than [delta] has
    passed since the last use, and hands the world back as it got it. *)
Theorem is_outdated_spec con delta w :
  (is_outdated con delta w).2 = w ∧
  ((is_outdated con delta w).1 = true ↔ now w - last_use (heap w con) > delta).
Proof.
  split; [done|]. unfold is_outdated; simpl.
  rewrite Z.gtb_ltb, Z.ltb_lt. lia.
Qed.

(** ** Acquire *)

Lemma pop_live_dead dead pool w :
  Forall (λ c, closed c w = true) dead →
  pop_live (dead ++ pool) w = pop_live pool w.
Proof.
  induction 1 as [|c dead Hc _ IH]; [done|].
  simpl. by rewrite Hc.
Qed.

Lemma pop_live_all_dead pool w :
  Forall (λ c, closed c w = true) pool → pop_live pool w = (None, []).
Proof.
  intros Hdead. rewrite <-(app_nil_r pool). by rewrite pop_live_dead.
Qed.

Lemma pop_live_found dead con rest w :
  Forall (λ c, closed c w = true) dead → closed con w = false →
  pop_live (dead ++ con :: rest) w = (Some con, rest).
Proof.
  intros Hdead Hcon. rewrite pop_live_dead by done. simpl. by rewrite Hcon.
Qed.

(** What is left after the loop is a suffix of the list. *)
Lemma pop_live_suffix pool w : (pop_live pool w).2 `suffix_of` pool.
Proof.
  induction pool as [|c pool IH]; simpl; [done|].
  destruct (closed c w).
  - by apply suffix_cons_r.
  - simpl. apply suffix_cons_r. done.
Qed.

(** The three ways an acquire can go: a live entry behind closed ones,
    closed entries only, no list. *)
Lemma get_cached_connection_cases self address certificate timeout w :
  let key := (address, certificate) in
  let m := _connections self in
  (∀ dead con rest,
      m !! key = Some (dead ++ con :: rest) →
      Forall (λ c, closed c w = true) dead → closed con w = false →
      get_cached_connection self address certificate timeout w
      = (Return con, with_connections (<[key := rest]> m) self, touch con w)
      ∧ calls (touch con w) = calls w ++ [Touch con]) ∧
  (∀ pool,
      m !! key = Some pool → Forall (λ c, closed c w = true) pool →
      get_cached_connection self address certificate timeout w
      = ((get_new_connection address certificate timeout w).1,
         with_connections (<[key := []]> m) self,
         (get_new_connection address certificate timeout w).2)) ∧
  (m !! key = None →
      get_cached_connection self address certificate timeout w
      = ((get_new_connection address certificate timeout w).1, self,
         (get_new_connection address certificate timeout w).2)).
Proof.
  intros key m. unfold get_cached_connection. fold key m.
  split; [|split].
  - intros dead con rest Hm Hdead Hcon. rewrite Hm.
    by rewrite (pop_live_found dead con rest w Hdead Hcon).
  - intros pool Hm Hdead. rewrite Hm, (pop_live_all_dead pool w Hdead).
    by destruct (get_new_connection address certificate timeout w).
  - intros Hm. rewrite Hm.
    by destruct (get_new_connection address certificate timeout w).
Qed.

(** C3.  Acquire pops from the front of the key's idle list.  Connections
    that report closed are dropped from the list and receive no call; the
    first one that is not closed is touched and returned.  With no live
    entry (every entry closed, or no list at all) the result is that of
    [get_new_connection], an exception included, run in a world where no
    connection received a call. *)
Theorem get_cached_connection_spec self address certificate timeout w :
  let key := (address, certificate) in
  let m := _connections self in
  (∀ dead con rest,
      m !! key = Some (dead ++ con :: rest) →
      Forall (λ c, closed c w = true) dead → closed con w = false →
      get_cached_connection self address certificate timeout w
      = (Return con, with_connections (<[key := rest]> m) self, touch con w)
      ∧ calls (touch con w) = calls w ++ [Touch con]) ∧
  (∀ pool,
      m !! key = Some pool → Forall (λ c, closed c w = true) pool →
      get_cached_connection self address certificate timeout w
      = ((get_new_connection address certificate timeout w).1,
         with_connections (<[key := []]> m) self,
         (get_new_connection address certificate timeout w).2)) ∧
  (m !! key = None →
      get_cached_connection self address certificate timeout w
      = ((get_new_connection address certificate timeout w).1, self,
         (get_new_connection address certificate timeout w).2)).
Proof.
  intros key m. unfold get_cached_connection. fold key m.
  split; [|split].
  - intros dead con rest Hm Hdead Hcon. rewrite Hm.
    by rewrite (pop_live_found dead con rest w Hdead Hcon).
  - intros pool Hm Hdead. rewrite Hm, (pop_live_all_dead pool w Hdead).
    by destruct (get_new_connection address certificate timeout w).
  - intros Hm. rewrite Hm.
    by destruct (get_new_connection address certificate timeout w).
Qed.

(** Acquire never unbinds a key. *)
Lemma get_cached_connection_keeps_keys self address certificate timeout w key :
  is_Some (_connections self !! key) →
  is_Some (_connections
             (get_cached_connection self address certificate timeout w).1.2
           !! key).
Proof.
  intros Hkey. unfold get_cached_connection.
  destruct (_connections self !! (address, certificate)) as [pool|] eqn:Hm.
  - destruct (pop_live pool w) as [[con|] pool'];
      [|destruct (get_new_connection address certificate timeout w)]; simpl;
      (destruct (decide ((address, certificate) = key)) as [<- |Hne];
       [rewrite lookup_insert_eq; eauto | by rewrite lookup_insert_ne]).
  - by destruct (get_new_connection address certificate timeout w).
Qed.

(** ** Release *)

(** C9.  Releasing a connection that reports closed does nothing at all:
    the pool and the world (every connection's state and the log of calls)
    are returned as they were. *)
Theorem release_closed self connection w :
  closed connection w = true → release self connection w = (self, w).
Proof. intros Hc. unfold release. by rewrite Hc. Qed.

(** C5.  When the key's idle list already holds [pool_size] connections or
    more, releasing a connection that is not closed closes it: the pool is
    returned unchanged and the world is the one after [close]. *)
Theorem release_surplus self connection w n :
  closed connection w = false →
  pool_size self = Some n → 0 ≤ n →
  n ≤ Z.of_nat (length (default [] (_connections self !! key_of connection w))) →
  release self connection w = (self, close connection w)
  ∧ closed connection (close connection w) = true
  ∧ calls (close connection w) = calls w ++ [Close connection].
Proof.
  intros Hc Hn Hpos Hfull. split; [|split].
  - unfold release, pooling_enabled, has_room, setdefault.
    rewrite Hc, Hn; simpl.
    destruct (n >? 0) eqn:Hgt; [|done].
    destruct (_connections self !! key_of connection w) as [pool|] eqn:Hm;
      simpl in Hfull.
    + destruct (Z.of_nat (length pool) <? n) eqn:Hlt; [lia|].
      by rewrite with_connections_same.
    + lia.
  - rewrite closed_close. by case_decide.
  - done.
Qed.

(** Release never unbinds a key. *)
Lemma release_keeps_keys self connection w key :
  is_Some (_connections self !! key) →
  is_Some (_connections (release self connection w).1 !! key).
Proof.
  intros Hkey. unfold release, setdefault.
  destruct (negb (closed connection w)); [|done].
  destruct (pooling_enabled self); [|done].
  destruct (_connections self !! key_of connection w) as [pool|] eqn:Hm.
  - destruct (has_room self pool); simpl; [|done].
    destruct (decide (key_of connection w = key)) as [<- |Hne];
      [rewrite lookup_insert_eq; eauto | by rewrite lookup_insert_ne].
  - destruct (has_room self []); simpl;
      (destruct (decide (key_of connection w = key)) as [<- |Hne];
       [rewrite lookup_insert_eq; eauto | by rewrite !lookup_insert_ne]).
Qed.

(** ** Outdate *)

Lemma swept_refl delta w : swept delta w [] w.
Proof.
  repeat split; try done.
  - intros Hc. by left.
  - intros [Hc|[Hc _]]; [done|]. by apply elem_of_nil in Hc.
  - exists []. split; [by rewrite app_nil_r|].
    intros ev; split; [by intros ?%elem_of_nil|].
    intros (c & _ & Hc & _). by apply elem_of_nil in Hc.
Qed.

Lemma is_outdated_swept delta w0 seen w c :
  swept delta w0 seen w → (is_outdated c delta w).1 = (is_outdated c delta w0).1.
Proof. intros (Hnow & Hlast & _). unfold is_outdated; simpl. by rewrite Hnow, Hlast. Qed.

(** Visiting a connection that reports closed changes nothing. *)
Lemma swept_skip delta w0 seen w con :
  swept delta w0 seen w → closed con w = true →
  swept delta w0 (seen ++ [con]) w.
Proof.
  intros (Hnow & Hlast & Hkey & Hclosed & new & Hcalls & Hnew) Hcon.
  repeat split; try done.
  - intros [Hc|[Hc Hout]]%Hclosed; [by left|]. right. split; [|done].
    apply elem_of_app. by left.
  - intros [Hc|[Hc Hout]]; apply Hclosed; [by left|].
    apply elem_of_app in Hc as [Hc| ->%list_elem_of_singleton]; [by right|].
    by apply Hclosed.
  - exists new. split; [done|]. intros ev. rewrite Hnew. split.
    + intros (c & -> & Hc & Hrest). exists c. split; [done|]. split; [|done].
      apply elem_of_app. by left.
    + intros (c & -> & Hc & Hc0 & Hout). exists c. split; [done|].
      split; [|done].
      apply elem_of_app in Hc as [Hc| ->%list_elem_of_singleton]; [done|].
      apply Hclosed in Hcon as [Hcon|[Hcon _]]; [congruence|done].
Qed.

(** Visiting a connection that is not outdated changes nothing either. *)
Lemma swept_keep delta w0 seen w con :
  swept delta w0 seen w → (is_outdated con delta w0).1 = false →
  swept delta w0 (seen ++ [con]) w.
Proof.
  intros (Hnow & Hlast & Hkey & Hclosed & new & Hcalls & Hnew) Hcon.
  repeat split; try done.
  - intros [Hc|[Hc Hout]]%Hclosed; [by left|]. right. split; [|done].
    apply elem_of_app. by left.
  - intros [Hc|[Hc Hout]]; apply Hclosed; [by left|].
    apply elem_of_app in Hc as [Hc| ->%list_elem_of_singleton]; [by right|].
    congruence.
  - exists new. split; [done|]. intros ev. rewrite Hnew. split.
    + intros (c & -> & Hc & Hrest). exists c. split; [done|]. split; [|done].
      apply elem_of_app. by left.
    + intros (c & -> & Hc & Hc0 & Hout). exists c. split; [done|].
      split; [|done].
      apply elem_of_app in Hc as [Hc| ->%list_elem_of_singleton]; [done|].
      congruence.
Qed.

(** Visiting an outdated connection that is not closed closes it. *)
Lemma swept_close delta w0 seen w con :
  swept delta w0 seen w → closed con w = false →
  (is_outdated con delta w0).1 = true →
  swept delta w0 (seen ++ [con]) (close con w).
Proof.
  intros (Hnow & Hlast & Hkey & Hclosed & new & Hcalls & Hnew) Hcon Hold.
  assert (closed con w0 = false) as Hcon0.
  { destruct (closed con w0) eqn:Hc0; [|done].
    rewrite <-Hcon. symmetry. apply Hclosed. by left. }
  repeat split.
  - done.
  - intros c. by rewrite last_use_close.
  - intros c. by rewrite key_of_close.
  - rewrite closed_close. case_decide as Hc.
    + subst c. intros _. right. split; [|done].
      apply elem_of_app. right. by apply list_elem_of_singleton.
    + intros [Hc'|[Hc' Hout]]%Hclosed; [by left|]. right. split; [|done].
      apply elem_of_app. by left.
  - rewrite closed_close. case_decide as Hc; [done|].
    intros [Hc'|[Hc' Hout]]; apply Hclosed; [by left|].
    apply elem_of_app in Hc' as [Hc'| ->%list_elem_of_singleton]; [by right|done].
  - exists (new ++ [Close con]). split.
    { simpl. by rewrite Hcalls, (assoc_L (++)). }
    intros ev. rewrite elem_of_app, Hnew, list_elem_of_singleton. split.
    + intros [(c & -> & Hc & Hrest)| ->].
      * exists c. split; [done|]. split; [|done]. apply elem_of_app. by left.
      * exists con. split; [done|]. split; [|done].
        apply elem_of_app. right. by apply list_elem_of_singleton.
    + intros (c & -> & Hc & Hc0 & Hout).
      apply elem_of_app in Hc as [Hc| ->%list_elem_of_singleton]; [|by right].
      left. by exists c.
Qed.

Lemma fresh_swept delta w0 seen w con :
  swept delta w0 seen w → closed con w = false →
  fresh delta w0 con = negb (is_outdated con delta w0).1.
Proof.
  intros (_ & _ & _ & Hclosed & _) Hcon. unfold fresh.
  destruct (closed con w0) eqn:Hc0; [|done].
  assert (closed con w = true) by (apply Hclosed; by left). congruence.
Qed.

Lemma stale_swept delta w0 seen w con :
  swept delta w0 seen w → closed con w = true → fresh delta w0 con = false.
Proof.
  intros (_ & _ & _ & Hclosed & _) Hcon. unfold fresh.
  apply Hclosed in Hcon as [->|[_ ->]]; [done|]. by rewrite andb_false_r.
Qed.

(** One idle list: the sweep keeps the connections that were fresh when
    [outdate] started, in their order. *)
Lemma sweep_spec delta w0 pool : ∀ new_pool seen w,
  swept delta w0 seen w →
  ∃ w', sweep delta pool new_pool w
        = (new_pool ++ filter (λ c, fresh delta w0 c = true) pool, w')
        ∧ swept delta w0 (seen ++ pool) w'.
Proof.
  induction pool as [|con pool IH]; intros new_pool seen w Hw; simpl.
  - exists w. by rewrite !app_nil_r.
  - destruct (closed con w) eqn:Hcon; simpl.
    + destruct (IH new_pool (seen ++ [con]) w) as (w' & Heq & Hw').
      { by apply swept_skip. }
      exists w'. rewrite Heq. rewrite <-(assoc_L (++)) in Hw'. split; [|done].
      rewrite filter_cons_False; [done|].
      by rewrite (stale_swept delta w0 seen w con Hw Hcon).
    + pose proof (fresh_swept delta w0 seen w con Hw Hcon) as Hfresh.
      pose proof (is_outdated_swept delta w0 seen w con Hw) as Hold.
      change (now w - last_use (heap w con) >? delta)
        with (is_outdated con delta w).1.
      rewrite Hold.
      destruct (is_outdated con delta w0).1 eqn:Hout; simpl.
      * destruct (IH new_pool (seen ++ [con]) (close con w)) as (w' & Heq & Hw').
        { by apply swept_close. }
        exists w'. rewrite Heq. rewrite <-(assoc_L (++)) in Hw'. split; [|done].
        rewrite filter_cons_False; [done|]. by rewrite Hfresh.
      * destruct (IH (new_pool ++ [con]) (seen ++ [con]) w) as (w' & Heq & Hw').
        { by apply swept_keep. }
        exists w'. rewrite Heq. rewrite <-!(assoc_L (++)) in *. split; [|done].
        rewrite filter_cons_True; [done|]. by rewrite Hfresh.
Qed.

Lemma with_connections_twice m1 m2 self :
  with_connections m2 (with_connections m1 self) = with_connections m2 self.
Proof. done. Qed.

(** All idle lists of a snapshot whose keys are distinct and bound as in the
    snapshot: no [del] fails, every list is replaced by its fresh part, and
    keys outside the snapshot keep their lists. *)
Lemma outdate_items_spec delta w0 items : ∀ self seen w,
  NoDup items.*1 →
  (∀ key pool, (key, pool) ∈ items → _connections self !! key = Some pool) →
  swept delta w0 seen w →
  ∃ m' w',
    outdate_items delta items self w = (Return tt, with_connections m' self, w')
    ∧ (∀ key, m' !! key
              = match (list_to_map items : gmap _ (list conn)) !! key with
                | Some pool => pruned delta w0 pool
                | None => _connections self !! key
                end)
    ∧ swept delta w0 (seen ++ mjoin items.*2) w'.
Proof.
  induction items as [|[key0 pool0] items IH]; intros self seen w Hnodup Hbound Hw.
  - exists (_connections self), w. simpl.
    rewrite with_connections_same, app_nil_r. done.
  - simpl in Hnodup.
    pose proof (NoDup_cons_1_1 _ _ Hnodup) as Hkey0.
    apply NoDup_cons_1_2 in Hnodup.
    destruct (sweep_spec delta w0 pool0 [] seen w Hw) as (w1 & Hsweep & Hw1).
    simpl in Hsweep. simpl. rewrite Hsweep.
    assert (∀ m1 : gmap (Address * Certificate) (list conn),
              m1 !! key0 = pruned delta w0 pool0 →
              (∀ key, key ≠ key0 → m1 !! key = _connections self !! key) →
              ∃ m' w',
                outdate_items delta items (with_connections m1 self) w1
                = (Return tt, with_connections m' self, w')
                ∧ (∀ key, m' !! key
                     = match <[key0 := pool0]>
                               (list_to_map items : gmap _ (list conn)) !! key with
                       | Some pool => pruned delta w0 pool
                       | None => _connections self !! key
                       end)
                ∧ swept delta w0 (seen ++ pool0 ++ mjoin items.*2) w')
      as Hrest.
    { intros m1 Hm1 Hother.
      destruct (IH (with_connections m1 self) (seen ++ pool0) w1)
        as (m' & w' & Hrun & Hm' & Hw'); [done| |done|].
      { intros key pool Hin. simpl. rewrite Hother.
        - apply Hbound. by right.
        - intros ->. apply Hkey0. apply list_elem_of_fmap.
          by exists (key0, pool). }
      exists m', w'. rewrite Hrun, with_connections_twice.
      rewrite <-(assoc_L (++)) in Hw'. split; [done|]. split; [|done].
      intros key. rewrite Hm'. simpl.
      destruct (decide (key = key0)) as [-> |Hne].
      - rewrite lookup_insert_eq.
        by rewrite (not_elem_of_list_to_map_1 _ _ Hkey0).
      - rewrite lookup_insert_ne by done.
        destruct (list_to_map items !! key); [done|]. by apply Hother. }
    destruct (filter (λ c, fresh delta w0 c = true) pool0) as [|c new_pool] eqn:Hf.
    + rewrite (Hbound key0 pool0) by left.
      apply Hrest.
      * rewrite lookup_delete_eq. unfold pruned. by rewrite Hf.
      * intros key Hne. by rewrite lookup_delete_ne.
    + apply Hrest.
      * rewrite lookup_insert_eq. unfold pruned. by rewrite Hf.
      * intros key Hne. by rewrite lookup_insert_ne.
Qed.

Lemma idle_concat self c :
  c ∈ mjoin (map_to_list (_connections self)).*2 ↔ idle self c.
Proof.
  unfold idle. rewrite list_elem_of_join. split.
  - intros (pool & Hc & Hpool). apply list_elem_of_fmap in Hpool as ([key pool'] & -> & Hin).
    apply elem_of_map_to_list in Hin. by exists key, pool'.
  - intros (key & pool & Hm & Hc). exists pool. split; [done|].
    apply list_elem_of_fmap. exists (key, pool). split; [done|].
    by apply elem_of_map_to_list.
Qed.

(** The whole of [outdate], in terms of the state it starts from. *)
Lemma outdate_swept self delta w :
  ∃ m' w',
    outdate self delta w = (Return tt, with_connections m' self, w')
    ∧ (∀ key, m' !! key = _connections self !! key ≫= pruned delta w)
    ∧ swept delta w (mjoin (map_to_list (_connections self)).*2) w'.
Proof.
  unfold outdate.
  destruct (outdate_items_spec delta w (map_to_list (_connections self))
              self [] w) as (m' & w' & Hrun & Hm' & Hw').
  - apply NoDup_fst_map_to_list.
  - intros key pool. apply elem_of_map_to_list.
  - apply swept_refl.
  - exists m', w'. split; [done|]. split; [|done].
    intros key. rewrite Hm', list_to_map_to_list.
    by destruct (_connections self !! key).
Qed.

(** The mapping and the closed connections after [outdate]. *)
Lemma outdate_facts self delta w :
  (outdate self delta w).1.1 = Return tt ∧
  (∀ key, _connections (outdate self delta w).1.2 !! key
          = _connections self !! key ≫= pruned delta w) ∧
  (∀ c, closed c (outdate self delta w).2 = true ↔
        closed c w = true ∨ (idle self c ∧ (is_outdated c delta w).1 = true)) ∧
  now (outdate self delta w).2 = now w.
Proof.
  destruct (outdate_swept self delta w)
    as (m' & w' & -> & Hm' & Hnow & _ & _ & Hclosed & _).
  simpl. repeat split; try done.
  - intros [Hc|[Hc Hout]]%Hclosed; [by left|]. right. by rewrite <-idle_concat.
  - intros [Hc|[Hc Hout]]; apply Hclosed; [by left|]. right. by rewrite idle_concat.
Qed.

(** C1, as the code has it.  [outdate] never fails.  Every idle list is
    replaced by the list of its fresh connections (neither closed nor
    outdated when [outdate] starts) in their order, and a key left without
    fresh connection is unbound.  [close] is called on the idle connections
    that are outdated and did not report closed, and on no other; those are
    the connections whose closed state changes.  No time stamp changes. *)
Theorem outdate_spec self delta w :
  let r := outdate self delta w in
  r.1.1 = Return tt ∧
  (∀ key, _connections r.1.2 !! key = _connections self !! key ≫= pruned delta w) ∧
  (∀ c, closed c r.2 = true ↔
        closed c w = true ∨ (idle self c ∧ (is_outdated c delta w).1 = true)) ∧
  (∃ new, calls r.2 = calls w ++ new ∧
     ∀ ev, ev ∈ new ↔
           ∃ c, ev = Close c ∧ idle self c ∧ closed c w = false
                ∧ (is_outdated c delta w).1 = true) ∧
  (∀ c, last_use (heap r.2 c) = last_use (heap w c)) ∧
  now r.2 = now w.
Proof.
  intros r. subst r.
  destruct (outdate_swept self delta w)
    as (m' & w' & -> & Hm' & Hnow & Hlast & _ & Hclosed & new & Hcalls & Hnew).
  simpl. repeat split; try done.
  - intros [Hc|[Hc Hout]]%Hclosed; [by left|]. right. by rewrite <-idle_concat.
  - intros [Hc|[Hc Hout]]; apply Hclosed; [by left|]. right. by rewrite idle_concat.
  - exists new. split; [done|]. intros ev. rewrite Hnew.
    split; intros (c & -> & Hc & Hrest); exists c; split; try done;
      (split; [|done]); by apply idle_concat.
Qed.

Lemma pruned_nonempty delta w pool : pruned delta w pool ≠ Some [].
Proof.
  unfold pruned. by destruct (filter (λ c, fresh delta w c = true) pool).
Qed.

Lemma pruned_length delta w pool new_pool :
  pruned delta w pool = Some new_pool → (length new_pool ≤ length pool)%nat.
Proof.
  unfold pruned. intros Hp.
  pose proof (length_filter (λ c, fresh delta w c = true) pool) as Hlen.
  destruct (filter (λ c, fresh delta w c = true) pool); [done|].
  by injection Hp as <-.
Qed.

Lemma pruned_none delta w pool :
  (∀ c, c ∈ pool → fresh delta w c = false) → pruned delta w pool = None.
Proof.
  intros Hstale. unfold pruned.
  replace (filter (λ c, fresh delta w c = true) pool) with (@nil conn); [done|].
  induction pool as [|c pool IH]; [done|].
  rewrite filter_cons_False.
  - apply IH. intros c' Hc'. apply Hstale. by right.
  - rewrite Hstale; [done|by left].
Qed.

(** [outdate] leaves no key bound to an empty list. *)
Lemma outdate_no_empty_bucket self delta w key :
  _connections (outdate self delta w).1.2 !! key ≠ Some [].
Proof.
  destruct (outdate_facts self delta w) as (_ & Hm' & _). rewrite Hm'.
  destruct (_connections self !! key) as [pool|]; [|done].
  apply pruned_nonempty.
Qed.

(** C10.  An acquire that takes the last entry of the key's idle list,
    by returning it or by dropping closed entries, leaves the key bound to
    the empty list.  Neither acquire nor release unbinds a key; [outdate]
    leaves no key bound to an empty list and unbinds those it finds. *)
Theorem empty_bucket_stays self address certificate timeout w :
  let key := (address, certificate) in
  let self' := (get_cached_connection self address certificate timeout w).1.2 in
  (∀ dead con,
      _connections self !! key = Some (dead ++ [con]) →
      Forall (λ c, closed c w = true) dead → closed con w = false →
      _connections self' !! key = Some []) ∧
  (∀ pool,
      _connections self !! key = Some pool →
      Forall (λ c, closed c w = true) pool →
      _connections self' !! key = Some []) ∧
  (∀ key', is_Some (_connections self !! key') →
           is_Some (_connections self' !! key')) ∧
  (∀ connection key',
      is_Some (_connections self !! key') →
      is_Some (_connections (release self connection w).1 !! key')) ∧
  (∀ delta key',
      _connections (outdate self delta w).1.2 !! key' ≠ Some []
      ∧ (_connections self !! key' = Some [] →
         _connections (outdate self delta w).1.2 !! key' = None)).
Proof.
  intros key self'. subst self'.
  destruct (get_cached_connection_cases self address certificate timeout w)
    as (Hhit & Hdead & _).
  split; [|split; [|split; [|split]]].
  - intros dead con Hm Hd Hcon.
    destruct (Hhit dead con [] Hm Hd Hcon) as [-> _]. simpl.
    apply lookup_insert_eq.
  - intros pool Hm Hd. rewrite (Hdead pool Hm Hd). simpl.
    apply lookup_insert_eq.
  - intros key'. apply get_cached_connection_keeps_keys.
  - intros connection key'. apply release_keeps_keys.
  - intros delta key'. split; [apply outdate_no_empty_bucket|].
    intros Hm. destruct (outdate_facts self delta w) as (_ & Hm' & _).
    by rewrite Hm', Hm.
Qed.

(** X16.  Disposal after time has passed: when every idle connection was last
    used strictly before now, [__del__] unbinds every key and leaves every
    idle connection closed. *)
Lemma BaseBackend_del_after_use self w :
  (∀ c, idle self c → last_use (heap w c) < now w) →
  _connections (BaseBackend_del self w).1.2 = ∅
  ∧ ∀ c, idle self c → closed c (BaseBackend_del self w).2 = true.
Proof.
  intros Hused. unfold BaseBackend_del.
  destruct (outdate_facts self 0 w) as (_ & Hm' & Hclosed & _).
  assert (∀ c, idle self c → (is_outdated c 0 w).1 = true) as Hout.
  { intros c Hc. unfold is_outdated. simpl. apply Z.gtb_lt.
    specialize (Hused c Hc). lia. }
  split.
  - apply map_eq. intros key. rewrite Hm', lookup_empty.
    destruct (_connections self !! key) as [pool|] eqn:Hm; [|done]. simpl.
    rewrite pruned_none; [done|].
    intros c Hc. unfold fresh.
    rewrite Hout; [|by exists key, pool]. by rewrite andb_false_r.
  - intros c Hc. apply Hclosed. right. split; [done|]. by apply Hout.
Qed.

(** ** Sequences of calls *)

Lemma get_cached_connection_pool_size self address certificate timeout w :
  pool_size (get_cached_connection self address certificate timeout w).1.2
  = pool_size self.
Proof.
  unfold get_cached_connection.
  destruct (_connections self !! (address, certificate)) as [pool|].
  - destruct (pop_live pool w) as [[con|] pool']; [done|].
    by destruct (get_new_connection address certificate timeout w).
  - by destruct (get_new_connection address certificate timeout w).
Qed.

(** Acquire only shortens idle lists. *)
Lemma get_cached_connection_shrinks self address certificate timeout w key pool' :
  _connections (get_cached_connection self address certificate timeout w).1.2
    !! key = Some pool' →
  ∃ pool, _connections self !! key = Some pool ∧ pool' `suffix_of` pool.
Proof.
  unfold get_cached_connection.
  destruct (_connections self !! (address, certificate)) as [pool|] eqn:Hm.
  - pose proof (pop_live_suffix pool w) as Hsuffix.
    assert (_connections
              (with_connections
                 (<[(address, certificate) := (pop_live pool w).2]>
                    (_connections self)) self) !! key = Some pool' →
            ∃ pool0, _connections self !! key = Some pool0
                     ∧ pool' `suffix_of` pool0) as Hgoal.
    { simpl. destruct (decide ((address, certificate) = key)) as [<- |Hne].
      - rewrite lookup_insert_eq. intros [= <-]. by exists pool.
      - rewrite lookup_insert_ne by done. intros Hk. by exists pool'. }
    destruct (pop_live pool w) as [[con|] pool0]; [done|].
    by destruct (get_new_connection address certificate timeout w).
  - destruct (get_new_connection address certificate timeout w).
    simpl. intros Hk. by exists pool'.
Qed.

Lemma release_pool_size self connection w :
  pool_size (release self connection w).1 = pool_size self.
Proof.
  unfold release.
  destruct (negb (closed connection w)); [|done].
  destruct (pooling_enabled self); [|done].
  destruct (setdefault (key_of connection w) (_connections self)) as [pool m].
  by destruct (has_room self pool).
Qed.

(** Release stores a connection only where it fits. *)
Lemma release_bounded n self connection w :
  0 ≤ n → pool_size self = Some n → bounded n self →
  bounded n (release self connection w).1.
Proof.
  intros Hpos Hn Hb. unfold release.
  destruct (negb (closed connection w)); [|done].
  destruct (pooling_enabled self); [|done].
  unfold setdefault, has_room. rewrite Hn.
  destruct (_connections self !! key_of connection w) as [pool|] eqn:Hm.
  - destruct (Z.of_nat (length pool) <? n) eqn:Hlt; [|by rewrite with_connections_same].
    apply Z.ltb_lt in Hlt.
    intros key pool'. simpl.
    destruct (decide (key_of connection w = key)) as [<- |Hne].
    + rewrite lookup_insert_eq. intros [= <-]. rewrite length_app. simpl. lia.
    + rewrite lookup_insert_ne by done. apply Hb.
  - destruct (Z.of_nat (length (@nil conn)) <? n) eqn:Hlt;
      [apply Z.ltb_lt in Hlt|]; intros key pool'; simpl in *;
      (destruct (decide (key_of connection w = key)) as [<- |Hne];
       [rewrite lookup_insert_eq; intros [= <-]; simpl; lia
       |rewrite !lookup_insert_ne by done; apply Hb]).
Qed.

Lemma outdate_pool_size self delta w :
  pool_size (outdate self delta w).1.2 = pool_size self.
Proof. by destruct (outdate_swept self delta w) as (m' & w' & -> & _). Qed.

(** [outdate] only shortens idle lists. *)
Lemma outdate_bounded n self delta w :
  bounded n self → bounded n (outdate self delta w).1.2.
Proof.
  intros Hb key new_pool. destruct (outdate_facts self delta w) as (_ & -> & _).
  destruct (_connections self !! key) as [pool|] eqn:Hm; [|done]. simpl.
  intros Hlen%pruned_length. specialize (Hb key pool Hm). lia.
Qed.

Lemma step_bounded n st o :
  0 ≤ n → pool_size st.1 = Some n → bounded n st.1 →
  pool_size (step st o).1 = Some n ∧ bounded n (step st o).1.
Proof.
  intros Hpos Hn Hb. destruct st as [self w]. simpl in *.
  destruct o as [a c t|con|delta|f]; simpl.
  - pose proof (get_cached_connection_pool_size self a c t w) as Hsize.
    pose proof (get_cached_connection_shrinks self a c t w) as Hshrink.
    destruct (get_cached_connection self a c t w) as [[r self'] w']. simpl in *.
    split; [congruence|].
    intros key pool' (pool & Hpool & Hsuffix%suffix_length)%Hshrink.
    specialize (Hb key pool Hpool). lia.
  - rewrite release_pool_size. split; [done|]. by apply release_bounded.
  - pose proof (outdate_pool_size self delta w) as Hsize.
    pose proof (outdate_bounded n self delta w Hb) as Hb'.
    destruct (outdate self delta w) as [[r self'] w']. simpl in *.
    split; [congruence|done].
  - done.
Qed.

Lemma run_bounded n ops : ∀ st,
  0 ≤ n → pool_size st.1 = Some n → bounded n st.1 →
  pool_size (run ops st).1 = Some n ∧ bounded n (run ops st).1.
Proof.
  induction ops as [|o ops IH]; intros st Hpos Hn Hb; [done|].
  simpl. destruct (step_bounded n st o Hpos Hn Hb) as [Hn' Hb'].
  by apply IH.
Qed.

(** Without a pool size, a release of a connection that is not closed
    always stores it. *)
Lemma release_unbounded self connection w :
  pool_size self = None → closed connection w = false →
  release self connection w
  = (with_connections
       (<[key_of connection w :=
            default [] (_connections self !! key_of connection w) ++ [connection]]>
          (_connections self)) self,
     touch connection w).
Proof.
  intros Hn Hc. unfold release, pooling_enabled, has_room, setdefault.
  rewrite Hc, Hn. simpl.
  destruct (_connections self !! key_of connection w) as [pool|]; simpl; [done|].
  by rewrite insert_insert_eq.
Qed.

Lemma run_release_unbounded connection k : ∀ self w pool,
  pool_size self = None → closed connection w = false →
  _connections self !! key_of connection w = Some pool →
  _connections (run (replicate k (Release connection)) (self, w)).1
    !! key_of connection w
  = Some (pool ++ replicate k connection).
Proof.
  induction k as [|k IH]; intros self w pool Hn Hc Hm.
  - by rewrite app_nil_r.
  - simpl. rewrite (release_unbounded self connection w Hn Hc), Hm. simpl.
    specialize (IH (with_connections
                      (<[key_of connection w := pool ++ [connection]]>
                         (_connections self)) self)
                   (touch connection w) (pool ++ [connection])).
    rewrite key_of_touch, closed_touch in IH.
    rewrite IH; [by rewrite <-(assoc_L (++))|done|done|].
    simpl. apply lookup_insert_eq.
Qed.

(** C2.  Starting from the empty pool of [__init__] with a pool size
    [n >= 0], after any sequence of acquire, release and [outdate] calls,
    interleaved with arbitrary changes of the world, no idle list is longer
    than [n].  Without a pool size there is no bound: for every number an
    idle list longer than it is reached. *)
Theorem pool_bounded :
  (∀ n use ops w0 key pool,
      0 ≤ n →
      _connections (run ops (BaseBackend_init (Some n) use, w0)).1 !! key
      = Some pool →
      Z.of_nat (length pool) ≤ n) ∧
  (∀ (N : nat) use (a : Address) (c : Certificate),
      ∃ ops w0 pool,
        _connections (run ops (BaseBackend_init None use, w0)).1 !! (a, c)
        = Some pool
        ∧ (N < length pool)%nat).
Proof.
  split.
  - intros n use ops w0 key pool Hpos Hm.
    destruct (run_bounded n ops (BaseBackend_init (Some n) use, w0)) as [_ Hb];
      [done|done| |by apply (Hb key pool)].
    intros key' pool'. simpl. by rewrite lookup_empty.
  - intros N use a c.
    exists (Release 0%nat :: replicate N (Release 0%nat)), (all_open a c 0),
           ([0%nat] ++ replicate N 0%nat).
    split; [|rewrite length_app, length_replicate; simpl; lia].
    simpl. rewrite release_unbounded by done.
    change (a, c) with (key_of 0%nat (touch 0%nat (all_open a c 0))).
    apply (run_release_unbounded 0%nat N _ _ [0%nat]); [done|done|].
    simpl. apply lookup_insert_eq.
Qed.

Lemma step_disabled st o :
  pool_size st.1 = Some 0 → _connections st.1 = ∅ →
  pool_size (step st o).1 = Some 0 ∧ _connections (step st o).1 = ∅.
Proof.
  destruct st as [self w]. simpl. intros Hn Hm.
  destruct o as [a c t|con|delta|f]; simpl.
  - unfold get_cached_connection. rewrite Hm, lookup_empty.
    by destruct (get_new_connection a c t w).
  - unfold release, pooling_enabled. rewrite Hn. simpl.
    by destruct (negb (closed con w)).
  - unfold outdate. by rewrite Hm, map_to_list_empty.
  - done.
Qed.

Lemma run_disabled ops : ∀ st,
  pool_size st.1 = Some 0 → _connections st.1 = ∅ →
  pool_size (run ops st).1 = Some 0 ∧ _connections (run ops st).1 = ∅.
Proof.
  induction ops as [|o ops IH]; intros st Hn Hm; [done|].
  simpl. destruct (step_disabled st o Hn Hm) as [Hn' Hm']. by apply IH.
Qed.

(** C7.  With pool size 0, in every state reached from the empty pool by
    a sequence of calls the idle mapping is empty, an acquire is exactly a
    call of [get_new_connection], and a release of a connection that is not
    closed is exactly a call of its [close]. *)
Theorem pooling_disabled use ops w0 :
  let st := run ops (BaseBackend_init (Some 0) use, w0) in
  _connections st.1 = ∅ ∧
  (∀ address certificate timeout,
      get_cached_connection st.1 address certificate timeout st.2
      = ((get_new_connection address certificate timeout st.2).1, st.1,
         (get_new_connection address certificate timeout st.2).2)) ∧
  (∀ connection,
      closed connection st.2 = false →
      release st.1 connection st.2 = (st.1, close connection st.2)).
Proof.
  intros st.
  destruct (run_disabled ops (BaseBackend_init (Some 0) use, w0)) as [Hn Hm];
    [done|done|]. fold st in Hn, Hm.
  split; [done|split].
  - intros address certificate timeout.
    unfold get_cached_connection. rewrite Hm, lookup_empty.
    by destruct (get_new_connection address certificate timeout st.2).
  - intros connection Hc. unfold release, pooling_enabled.
    by rewrite Hc, Hn.
Qed.

(** With room, a release of a connection that is not closed touches it and
    appends it to its key's idle list. *)
Lemma release_stores self connection w :
  closed connection w = false →
  has_room self (default [] (_connections self !! key_of connection w)) = true →
  release self connection w
  = (with_connections
       (<[key_of connection w :=
            default [] (_connections self !! key_of connection w) ++ [connection]]>
          (_connections self)) self,
     touch connection w).
Proof.
  intros Hc Hroom. unfold release, setdefault. rewrite Hc. simpl.
  assert (pooling_enabled self = true) as ->.
  { unfold pooling_enabled, has_room in *.
    destruct (pool_size self) as [n|]; [|done].
    apply Z.ltb_lt in Hroom. apply Z.gtb_lt. lia. }
  destruct (_connections self !! key_of connection w) as [pool|] eqn:Hm;
    simpl in *.
  - by rewrite Hroom.
  - by rewrite Hroom, insert_insert_eq.
Qed.

(** C4, as the code has it.  With room in the bucket, releasing a
    connection that is not closed touches it and appends it to the end of
    the key's idle list.  The next acquire on that key returns this very
    connection, touched again, when every connection queued before it
    reports closed (in particular when the bucket was empty or unbound);
    otherwise it returns the first queued connection that is not closed and
    the released one stays in the list. *)
Theorem release_then_acquire self connection w timeout :
  let key := key_of connection w in
  let pool := default [] (_connections self !! key) in
  let st := release self connection w in
  closed connection w = false → has_room self pool = true →
  st = (with_connections (<[key := pool ++ [connection]]> (_connections self)) self,
        touch connection w)
  ∧ (Forall (λ c, closed c w = true) pool →
       get_cached_connection st.1 key.1 key.2 timeout st.2
       = (Return connection,
          with_connections (<[key := []]> (_connections st.1)) st.1,
          touch connection (touch connection w))
       ∧ last_use (heap (touch connection (touch connection w)) connection) = now w
       ∧ calls (touch connection (touch connection w))
         = calls w ++ [Touch connection; Touch connection])
  ∧ (∀ dead c rest,
       pool = dead ++ c :: rest →
       Forall (λ c, closed c w = true) dead → closed c w = false →
       get_cached_connection st.1 key.1 key.2 timeout st.2
       = (Return c,
          with_connections (<[key := rest ++ [connection]]> (_connections st.1)) st.1,
          touch c (touch connection w))).
Proof.
  intros key pool st Hc Hroom.
  assert (st = (with_connections
                  (<[key := pool ++ [connection]]> (_connections self)) self,
                touch connection w)) as Hst.
  { subst st. unfold release, setdefault. rewrite Hc. simpl.
    assert (pooling_enabled self = true) as ->.
    { unfold pooling_enabled, has_room in *.
      destruct (pool_size self) as [n|]; [|done].
      apply Z.ltb_lt in Hroom. apply Z.gtb_lt. lia. }
    subst pool. fold key.
    destruct (_connections self !! key) as [pool|] eqn:Hm; simpl in *.
    - by rewrite Hroom.
    - by rewrite Hroom, insert_insert_eq. }
  split; [done|]. rewrite Hst. cbn [fst snd].
  assert (∀ l, Forall (λ c, closed c w = true) l →
               Forall (λ c, closed c (touch connection w) = true) l) as Hdead.
  { intros l. apply Forall_impl. intros c. by rewrite closed_touch. }
  pose proof (get_cached_connection_cases
                (with_connections
                   (<[key := pool ++ [connection]]> (_connections self)) self)
                key.1 key.2 timeout (touch connection w)) as (Hhit & _).
  cbn zeta in Hhit. change (key.1, key.2) with key in Hhit.
  cbn [_connections with_connections] in Hhit. split.
  - intros Hpool.
    destruct (Hhit pool connection []) as [-> _].
    + apply lookup_insert_eq.
    + by apply Hdead.
    + by rewrite closed_touch.
    + split; [done|]. split.
      * rewrite last_use_touch. by case_decide.
      * unfold touch at 1. cbn [calls]. unfold touch at 1. cbn [calls].
        by rewrite <-(assoc_L (++)).
  - intros dead c rest Hpool Hd Hlive.
    destruct (Hhit dead c (rest ++ [connection])) as [-> _]; [| | |done].
    + rewrite lookup_insert_eq, Hpool. by rewrite <-(assoc_L (++)).
    + by apply Hdead.
    + by rewrite closed_touch.
Qed.

(** * Further properties of the pool *)

(** Every idle connection is filed under its own endpoint. *)
Definition filed (self : BaseBackend) (w : world) : Prop :=
  ∀ key pool c, _connections self !! key = Some pool → c ∈ pool → key_of c w = key.

(** No idle list holds a connection twice. *)
Definition distinct (self : BaseBackend) : Prop :=
  ∀ key pool, _connections self !! key = Some pool → NoDup pool.

(** ** One key at a time *)

(** The mapping after a release. *)
Lemma release_lookup self connection w key :
  _connections (release self connection w).1 !! key
  = _connections self !! key
  ∨ key = key_of connection w
    ∧ closed connection w = false
    ∧ (_connections (release self connection w).1 !! key
       = Some (default [] (_connections self !! key) ++ [connection])
       ∧ (release self connection w).2 = touch connection w
       ∨ _connections self !! key = None
         ∧ _connections (release self connection w).1 !! key = Some []
         ∧ (release self connection w).2 = close connection w).
Proof.
  unfold release, setdefault.
  destruct (closed connection w) eqn:Hc; simpl; [by left|].
  destruct (pooling_enabled self); [|by left].
  destruct (decide (key_of connection w = key)) as [<- |Hne].
  - destruct (_connections self !! key_of connection w) as [pool|] eqn:Hm.
    + destruct (has_room self pool); simpl; [|by left].
      right. split; [done|]. split; [done|]. left.
      by rewrite lookup_insert_eq.
    + right. split; [done|]. split; [done|].
      destruct (has_room self []); simpl.
      * left. by rewrite lookup_insert_eq.
      * right. by rewrite lookup_insert_eq.
  - left.
    destruct (_connections self !! key_of connection w) as [pool|] eqn:Hm.
    + destruct (has_room self pool); simpl; [|done].
      by rewrite lookup_insert_ne.
    + destruct (has_room self []); simpl; by rewrite !lookup_insert_ne.
Qed.

(** X1.  An acquire changes no idle list but the one of the key it asks
    for, whatever [get_new_connection] does, and a release changes no idle
    list but the one of the released connection's endpoint. *)
Theorem other_keys_untouched self address certificate timeout connection w key :
  (key ≠ (address, certificate) →
   _connections (get_cached_connection self address certificate timeout w).1.2
     !! key
   = _connections self !! key) ∧
  (key ≠ key_of connection w →
   _connections (release self connection w).1 !! key = _connections self !! key).
Proof.
  split.
  - intros Hne. unfold get_cached_connection.
    destruct (_connections self !! (address, certificate)) as [pool|].
    + destruct (pop_live pool w) as [[con|] pool'];
        [|destruct (get_new_connection address certificate timeout w)];
        simpl; by rewrite lookup_insert_ne.
    + by destruct (get_new_connection address certificate timeout w).
  - intros Hne.
    destruct (release_lookup self connection w key) as [Heq|[Heq _]]; done.
Qed.

(** X2.  Only a release puts a connection into the pool: what is idle
    after an acquire or after [outdate] was idle before, and what is idle
    after a release was idle before or is the released connection. *)
Theorem only_release_adds self w :
  (∀ address certificate timeout c,
      idle (get_cached_connection self address certificate timeout w).1.2 c →
      idle self c) ∧
  (∀ delta c, idle (outdate self delta w).1.2 c → idle self c) ∧
  (∀ connection c,
      idle (release self connection w).1 c → idle self c ∨ c = connection).
Proof.
  split; [|split].
  - intros address certificate timeout c (key & pool' & Hm' & Hc).
    apply get_cached_connection_shrinks in Hm' as (pool & Hm & Hsuffix).
    exists key, pool. split; [done|]. by eapply elem_of_suffix.
  - intros delta c (key & pool' & Hm' & Hc).
    destruct (outdate_facts self delta w) as (_ & Hlookup & _).
    rewrite Hlookup in Hm'.
    destruct (_connections self !! key) as [pool|] eqn:Hm; [|done].
    simpl in Hm'. exists key, pool. split; [done|].
    unfold pruned in Hm'.
    destruct (filter (λ c, fresh delta w c = true) pool) as [|c' l] eqn:Hf;
      [done|].
    injection Hm' as <-. rewrite <-Hf in Hc.
    by apply list_elem_of_filter in Hc as [_ Hc].
  - intros connection c (key & pool' & Hm' & Hc).
    destruct (release_lookup self connection w key)
      as [Heq|(-> & _ & [[Heq _]|(_ & Heq & _)])].
    + left. exists key, pool'. by rewrite <-Heq.
    + rewrite Heq in Hm'. injection Hm' as <-.
      apply elem_of_app in Hc as [Hc| ->%list_elem_of_singleton]; [|by right].
      left. destruct (_connections self !! key_of connection w) as [pool|] eqn:Hm.
      * by exists (key_of connection w), pool.
      * by apply elem_of_nil in Hc.
    + rewrite Heq in Hm'. injection Hm' as <-. by apply elem_of_nil in Hc.
Qed.

(** X3.  [setdefault] in [release] leaves no empty list behind: a key
    bound to the empty list after a release was bound to it before. *)
Theorem release_binds_no_empty_list self connection w key :
  _connections (release self connection w).1 !! key = Some [] →
  _connections self !! key = Some [].
Proof.
  intros Hm'. unfold release, setdefault, pooling_enabled, has_room in Hm'.
  destruct (closed connection w); simpl in Hm'; [done|].
  destruct (pool_size self) as [n|] eqn:Hn.
  - destruct (n >? 0) eqn:Hgt; [|done]. apply Z.gtb_lt in Hgt.
    destruct (_connections self !! key_of connection w) as [pool|] eqn:Hm.
    + destruct (Z.of_nat (length pool) <? n); simpl in Hm'; [|done].
      destruct (decide (key_of connection w = key)) as [<- |Hne].
      * rewrite lookup_insert_eq in Hm'. by destruct pool.
      * by rewrite lookup_insert_ne in Hm'.
    + destruct (Z.of_nat (length (@nil conn)) <? n) eqn:Hlt;
        [|apply Z.ltb_ge in Hlt; simpl in Hlt; lia].
      simpl in Hm'.
      destruct (decide (key_of connection w = key)) as [<- |Hne].
      * by rewrite lookup_insert_eq in Hm'.
      * by rewrite !lookup_insert_ne in Hm'.
  - destruct (_connections self !! key_of connection w) as [pool|] eqn:Hm;
      simpl in Hm';
      (destruct (decide (key_of connection w = key)) as [<- |Hne];
       [rewrite lookup_insert_eq in Hm'
       |by rewrite !lookup_insert_ne in Hm']).
    + by destruct pool.
    + done.
Qed.

(** X4.  A pool size that is zero or negative disables pooling: a
    connection that is not closed is closed by [release], and the pool is
    not touched. *)
Theorem release_nonpositive_pool_size self connection w n :
  pool_size self = Some n → n ≤ 0 → closed connection w = false →
  release self connection w = (self, close connection w).
Proof.
  intros Hn Hneg Hc. unfold release, pooling_enabled. rewrite Hc, Hn. simpl.
  destruct (n >? 0) eqn:Hgt; [|done]. apply Z.gtb_lt in Hgt. lia.
Qed.

(** ** Connection objects *)

Lemma heap_touch c con w : c ≠ con → heap (touch con w) c = heap w c.
Proof. intros Hne. unfold touch; simpl. by rewrite fn_lookup_insert_ne. Qed.

Lemma heap_close c con w : c ≠ con → heap (close con w) c = heap w c.
Proof.
  intros Hne. unfold close; simpl. destruct (closed con w); [done|].
  by rewrite fn_lookup_insert_ne.
Qed.

Lemma release_world self connection w :
  (release self connection w).2 = w
  ∨ (release self connection w).2 = touch connection w
  ∨ (release self connection w).2 = close connection w.
Proof.
  unfold release. destruct (negb (closed connection w)); [|by left].
  destruct (pooling_enabled self); [|by right; right].
  destruct (setdefault (key_of connection w) (_connections self)) as [pool m].
  destruct (has_room self pool); [by right; left|by right; right].
Qed.

Lemma connection_eq (x y : BaseConnection) :
  address x = address y → certificate x = certificate y →
  last_use x = last_use y → is_closed x = is_closed y → x = y.
Proof. destruct x, y. simpl. by intros -> -> -> ->. Qed.

(** X5.  A release reads and writes one connection object, the released
    one: every other object, the clock and the endpoint of the released
    connection are as before.  [outdate] writes idle connections only. *)
Theorem other_connections_untouched self w c :
  (∀ connection,
      (c ≠ connection → heap (release self connection w).2 c = heap w c)
      ∧ now (release self connection w).2 = now w
      ∧ key_of connection (release self connection w).2 = key_of connection w) ∧
  (∀ delta, ¬ idle self c → heap (outdate self delta w).2 c = heap w c).
Proof.
  split.
  - intros connection.
    destruct (release_world self connection w) as [-> |[-> | ->]].
    + done.
    + split; [apply heap_touch|]. split; [done|apply key_of_touch].
    + split; [apply heap_close|]. split; [done|apply key_of_close].
  - intros delta Hc.
    destruct (outdate_swept self delta w)
      as (m' & w' & -> & _ & _ & Hlast & Hkey & Hclosed & _).
    simpl. specialize (Hkey c). unfold key_of in Hkey.
    apply connection_eq; [congruence|congruence|done|].
    specialize (Hclosed c). unfold closed in Hclosed.
    destruct (is_closed (heap w' c)) eqn:Hc'.
    + destruct (proj1 Hclosed eq_refl) as [Hw|[Hidle _]]; [done|].
      by apply idle_concat in Hidle.
    + destruct (is_closed (heap w c)); [|done].
      assert (false = true) as Habsurd by (apply Hclosed; by left).
      discriminate Habsurd.
Qed.

(** ** Filing and duplicates *)

(** X6.  Idle connections stay filed under their own endpoint through a
    release and through [outdate], and an acquire that is served from the
    pool returns a connection to the endpoint it was asked for. *)
Theorem filed_preserved self w :
  filed self w →
  (∀ connection,
      filed (release self connection w).1 (release self connection w).2) ∧
  (∀ delta, filed (outdate self delta w).1.2 (outdate self delta w).2) ∧
  (∀ address certificate timeout dead con rest,
      _connections self !! (address, certificate) = Some (dead ++ con :: rest) →
      Forall (λ c, closed c w = true) dead → closed con w = false →
      let r := get_cached_connection self address certificate timeout w in
      r.1.1 = Return con ∧ key_of con r.2 = (address, certificate)
      ∧ filed r.1.2 r.2).
Proof.
  intros Hfiled. split; [|split].
  - intros connection key pool' c Hm' Hc.
    assert (key_of c (release self connection w).2 = key_of c w) as ->.
    { destruct (release_world self connection w) as [-> |[-> | ->]];
        [done|apply key_of_touch|apply key_of_close]. }
    destruct (release_lookup self connection w key)
      as [Heq|(-> & _ & [[Heq _]|(_ & Heq & _)])].
    + rewrite Heq in Hm'. by apply (Hfiled key pool').
    + rewrite Heq in Hm'. injection Hm' as <-.
      apply elem_of_app in Hc as [Hc| ->%list_elem_of_singleton]; [|done].
      destruct (_connections self !! key_of connection w) as [pool|] eqn:Hm.
      * by apply (Hfiled _ pool).
      * by apply elem_of_nil in Hc.
    + rewrite Heq in Hm'. injection Hm' as <-. by apply elem_of_nil in Hc.
  - intros delta key pool' c Hm' Hc.
    destruct (outdate_swept self delta w)
      as (m' & w' & Heq & Hlookup & _ & _ & Hkey & _).
    rewrite Heq in Hm' |- *. simpl in *. rewrite Hkey.
    rewrite Hlookup in Hm'.
    destruct (_connections self !! key) as [pool0|] eqn:Hm0; [|done].
    simpl in Hm'. apply (Hfiled key pool0); [done|].
    unfold pruned in Hm'.
    destruct (filter (λ c, fresh delta w c = true) pool0) as [|c' l] eqn:Hf;
      [done|].
    injection Hm' as <-. rewrite <-Hf in Hc.
    by apply list_elem_of_filter in Hc as [_ Hc].
  - intros address certificate timeout dead con rest Hm Hdead Hcon r. subst r.
    destruct (get_cached_connection_cases self address certificate timeout w)
      as (Hhit & _).
    destruct (Hhit dead con rest Hm Hdead Hcon) as [-> _]. simpl.
    split; [done|].
    assert (∀ c, c ∈ dead ++ con :: rest → key_of c (touch con w)
                                           = (address, certificate)) as Hall.
    { intros c Hc. rewrite key_of_touch. by apply (Hfiled _ _ c Hm). }
    split.
    + apply Hall. apply elem_of_app. right. by left.
    + intros key pool' c Hm' Hc.
      cbn [_connections with_connections] in Hm'.
      destruct (decide ((address, certificate) = key)) as [<- |Hne].
      * rewrite lookup_insert_eq in Hm'. injection Hm' as <-.
        apply Hall. apply elem_of_app. right. by right.
      * rewrite lookup_insert_ne in Hm' by done. rewrite key_of_touch.
        by apply (Hfiled key pool').
Qed.

(** X7.  Idle lists stay free of duplicates through an acquire and
    through [outdate], and through a release of a connection that is not
    idle under its endpoint. *)
Theorem distinct_preserved self w :
  distinct self →
  (∀ address certificate timeout,
      distinct (get_cached_connection self address certificate timeout w).1.2) ∧
  (∀ delta, distinct (outdate self delta w).1.2) ∧
  (∀ connection,
      connection ∉ default [] (_connections self !! key_of connection w) →
      distinct (release self connection w).1).
Proof.
  intros Hd. split; [|split].
  - intros address certificate timeout key pool' Hm'.
    apply get_cached_connection_shrinks in Hm' as (pool & Hm & [k ->]).
    apply Hd in Hm. by apply list.NoDup_app in Hm as (_ & _ & Hm).
  - intros delta key pool' Hm'.
    destruct (outdate_facts self delta w) as (_ & Hlookup & _).
    rewrite Hlookup in Hm'.
    destruct (_connections self !! key) as [pool|] eqn:Hm; [|done].
    simpl in Hm'. unfold pruned in Hm'.
    destruct (filter (λ c, fresh delta w c = true) pool) as [|c' l] eqn:Hf;
      [done|].
    injection Hm' as <-. rewrite <-Hf. apply list.NoDup_filter. by apply (Hd key).
  - intros connection Hnew key pool' Hm'.
    destruct (release_lookup self connection w key)
      as [Heq|(-> & _ & [[Heq _]|(_ & Heq & _)])].
    + rewrite Heq in Hm'. by apply (Hd key).
    + rewrite Heq in Hm'. injection Hm' as <-.
      apply list.NoDup_app. split; [|split].
      * destruct (_connections self !! key_of connection w) as [pool|] eqn:Hm;
          [by apply (Hd (key_of connection w) pool)|apply NoDup_nil_2].
      * intros c Hc ->%list_elem_of_singleton. by apply Hnew.
      * apply NoDup_singleton.
    + rewrite Heq in Hm'. injection Hm' as <-. apply NoDup_nil_2.
Qed.

(** ** Sweeping twice *)

Lemma sweep_fresh delta pool : ∀ new_pool w,
  (∀ c, c ∈ pool → fresh delta w c = true) →
  sweep delta pool new_pool w = (new_pool ++ pool, w).
Proof.
  induction pool as [|con pool IH]; intros new_pool w Hfresh; simpl.
  - by rewrite app_nil_r.
  - assert (fresh delta w con = true) as Hcon by (apply Hfresh; by left).
    unfold fresh in Hcon. apply andb_true_iff in Hcon as [Hlive Hnew].
    rewrite Hlive. unfold is_outdated in *. simpl in *. rewrite Hnew.
    rewrite IH; [by rewrite <-(assoc_L (++))|].
    intros c Hc. apply Hfresh. by right.
Qed.

Lemma outdate_items_fresh delta w items : ∀ self,
  (∀ key pool, (key, pool) ∈ items →
     _connections self !! key = Some pool ∧ pool ≠ []
     ∧ ∀ c, c ∈ pool → fresh delta w c = true) →
  outdate_items delta items self w = (Return tt, self, w).
Proof.
  induction items as [|[key pool] items IH]; intros self Hitems; [done|].
  destruct (Hitems key pool) as (Hm & Hne & Hfresh); [by left|].
  simpl. rewrite (sweep_fresh delta pool [] w Hfresh). simpl.
  destruct pool as [|c pool]; [done|].
  rewrite insert_id by done. rewrite with_connections_same.
  apply IH. intros key' pool' Hin. apply Hitems. by right.
Qed.

(** X8.  [outdate] changes nothing at all, not even the log of calls,
    when no key is bound to an empty list and every idle connection is
    fresh: neither closed nor outdated. *)
Theorem outdate_fresh_pool self delta w :
  (∀ key pool, _connections self !! key = Some pool →
     pool ≠ [] ∧ ∀ c, c ∈ pool → fresh delta w c = true) →
  outdate self delta w = (Return tt, self, w).
Proof.
  intros Hfresh. unfold outdate. apply outdate_items_fresh.
  intros key pool Hin%elem_of_map_to_list. split; [done|]. by apply (Hfresh key pool).
Qed.

(** What [outdate] leaves in the pool is fresh in the world it leaves. *)
Lemma outdate_result_fresh self delta w key pool :
  _connections (outdate self delta w).1.2 !! key = Some pool →
  pool ≠ [] ∧ ∀ c, c ∈ pool → fresh delta (outdate self delta w).2 c = true.
Proof.
  intros Hm'.
  split; [intros ->; by apply (outdate_no_empty_bucket self delta w key)|].
  intros c Hc.
  destruct (outdate_swept self delta w) as (m' & w' & Heq & Hlookup & Hw').
  rewrite Heq in Hm' |- *. simpl in *. rewrite Hlookup in Hm'.
  destruct (_connections self !! key) as [pool0|] eqn:Hm; [|done].
  simpl in Hm'. unfold pruned in Hm'.
  destruct (filter (λ c, fresh delta w c = true) pool0) as [|c' l] eqn:Hf;
    [done|].
  injection Hm' as <-. rewrite <-Hf in Hc.
  apply list_elem_of_filter in Hc as [Hfresh Hc].
  unfold fresh in *. apply andb_true_iff in Hfresh as [Hlive Hnew].
  rewrite (is_outdated_swept delta w _ w' c Hw'), Hnew.
  destruct Hw' as (_ & _ & _ & Hclosed & _).
  destruct (closed c w') eqn:Hc'; [|done].
  apply Hclosed in Hc' as [Hc'|[_ Hc']].
  - by rewrite Hc' in Hlive.
  - by rewrite Hc' in Hnew.
Qed.

(** X9.  After [outdate], every connection that is still idle is not
    closed and not outdated, by the clock and the duration of the sweep. *)
Theorem outdate_leaves_fresh self delta w c :
  idle (outdate self delta w).1.2 c →
  closed c (outdate self delta w).2 = false
  ∧ now (outdate self delta w).2 - last_use (heap (outdate self delta w).2 c)
    ≤ delta.
Proof.
  intros (key & pool & Hm & Hc).
  destruct (outdate_result_fresh self delta w key pool Hm) as [_ Hfresh].
  specialize (Hfresh c Hc). unfold fresh, is_outdated in Hfresh. simpl in Hfresh.
  apply andb_true_iff in Hfresh as [Hlive Hnew].
  split; [by destruct (closed c (outdate self delta w).2)|].
  apply negb_true_iff in Hnew. rewrite Z.gtb_ltb in Hnew.
  apply Z.ltb_ge in Hnew. lia.
Qed.

(** X10.  [outdate] is idempotent: run again on the pool and the world
    it left, with the same duration and before the clock moves, it returns
    them unchanged and calls no [close]. *)
Theorem outdate_idempotent self delta w :
  outdate (outdate self delta w).1.2 delta (outdate self delta w).2
  = (Return tt, (outdate self delta w).1.2, (outdate self delta w).2).
Proof.
  unfold outdate at 1. apply outdate_items_fresh.
  intros key pool Hin%elem_of_map_to_list. split; [done|].
  by apply (outdate_result_fresh self delta w key pool).
Qed.

(** ** Release and then *)

Lemma pruned_elem delta w pool c :
  c ∈ pool → fresh delta w c = true →
  ∃ new_pool, pruned delta w pool = Some new_pool ∧ c ∈ new_pool.
Proof.
  intros Hc Hfresh. unfold pruned.
  assert (c ∈ filter (λ c, fresh delta w c = true) pool) as Hin
    by by apply list_elem_of_filter.
  destruct (filter (λ c, fresh delta w c = true) pool) as [|c' l];
    [by apply elem_of_nil in Hin|].
  by exists (c' :: l).
Qed.

(** X11.  A release resets the idle time: the connection it stores is not
    removed by an [outdate] with a duration that is not negative, zero
    included, that runs before the clock moves on. *)
Theorem released_connection_survives_outdate self connection w delta :
  closed connection w = false →
  has_room self (default [] (_connections self !! key_of connection w)) = true →
  0 ≤ delta →
  let st := release self connection w in
  ∃ pool,
    _connections (outdate st.1 delta st.2).1.2 !! key_of connection w = Some pool
    ∧ connection ∈ pool
    ∧ closed connection (outdate st.1 delta st.2).2 = false.
Proof.
  intros Hc Hroom Hdelta st.
  pose proof (release_stores self connection w Hc Hroom) as Hst.
  fold st in Hst.
  assert (fresh delta st.2 connection = true) as Hfresh.
  { rewrite Hst. simpl. unfold fresh.
    rewrite closed_touch, Hc. simpl.
    unfold is_outdated. simpl. rewrite fn_lookup_insert. simpl.
    apply negb_true_iff. rewrite Z.gtb_ltb. apply Z.ltb_ge. lia. }
  destruct (outdate_facts st.1 delta st.2) as (_ & Hlookup & Hclosed & _).
  destruct (pruned_elem delta st.2
              (default [] (_connections self !! key_of connection w)
               ++ [connection]) connection) as (pool & Hpool & Hin);
    [apply elem_of_app; right; by apply list_elem_of_singleton|done|].
  exists pool. split; [|split; [done|]].
  - rewrite Hlookup. rewrite Hst in Hpool |- *. simpl in *.
    by rewrite lookup_insert_eq.
  - unfold fresh in Hfresh. apply andb_true_iff in Hfresh as [Hlive Hnew].
    destruct (closed connection (outdate st.1 delta st.2).2) eqn:Hc'; [|done].
    apply Hclosed in Hc' as [Hc'|[_ Hc']].
    + by rewrite Hc' in Hlive.
    + by rewrite Hc' in Hnew.
Qed.

Lemma has_room_shorter self pool pool' :
  (length pool' ≤ length pool)%nat → has_room self pool = true →
  has_room self pool' = true.
Proof.
  unfold has_room. destruct (pool_size self) as [n|]; [|done].
  intros Hlen Hroom%Z.ltb_lt. apply Z.ltb_lt. lia.
Qed.

(** X12.  [release] does not look for the connection in the idle list.
    Released twice, with room for two, a connection is stored twice; when
    every connection queued before it reports closed, the next two
    acquires both return this same connection. *)
Theorem release_twice self connection w timeout :
  let key := key_of connection w in
  let pool := default [] (_connections self !! key) in
  let st1 := release self connection w in
  let st2 := release st1.1 connection st1.2 in
  let r1 := get_cached_connection st2.1 key.1 key.2 timeout st2.2 in
  let r2 := get_cached_connection r1.1.2 key.1 key.2 timeout r1.2 in
  closed connection w = false →
  has_room self (pool ++ [connection]) = true →
  _connections st2.1 !! key = Some (pool ++ [connection; connection])
  ∧ (Forall (λ c, closed c w = true) pool →
     r1.1.1 = Return connection ∧ r2.1.1 = Return connection
     ∧ _connections r2.1.2 !! key = Some []).
Proof.
  intros key pool st1 st2 r1 r2 Hc Hroom.
  assert (has_room self pool = true) as Hroom1.
  { apply (has_room_shorter self (pool ++ [connection])); [|done].
    rewrite length_app. lia. }
  pose proof (release_stores self connection w Hc Hroom1) as Hst1.
  fold key pool st1 in Hst1.
  assert (closed connection st1.2 = false) as Hc1
    by (by rewrite Hst1; simpl; rewrite closed_touch).
  assert (key_of connection st1.2 = key) as Hkey1
    by (by rewrite Hst1; simpl; rewrite key_of_touch).
  assert (_connections st1.1 !! key = Some (pool ++ [connection])) as Hm1
    by (by rewrite Hst1; simpl; rewrite lookup_insert_eq).
  assert (has_room st1.1
            (default [] (_connections st1.1 !! key_of connection st1.2)) = true)
    as Hroom2.
  { rewrite Hkey1, Hm1. simpl. by rewrite Hst1. }
  pose proof (release_stores st1.1 connection st1.2 Hc1 Hroom2) as Hst2.
  rewrite Hkey1, Hm1 in Hst2. simpl in Hst2. fold st2 in Hst2.
  assert (_connections st2.1 !! key = Some (pool ++ [connection; connection]))
    as Hm2.
  { rewrite Hst2. simpl. by rewrite lookup_insert_eq, <-(assoc_L (++)). }
  split; [done|]. intros Hdead.
  assert (closed connection st2.2 = false) as Hc2
    by (by rewrite Hst2; simpl; rewrite closed_touch).
  assert (Forall (λ c, closed c st2.2 = true) pool) as Hdead2.
  { rewrite Hst2, Hst1. simpl. eapply Forall_impl; [|exact Hdead].
    intros c. simpl. by rewrite !closed_touch. }
  destruct (get_cached_connection_cases st2.1 key.1 key.2 timeout st2.2)
    as (Hhit1 & _).
  cbn zeta in Hhit1. change (key.1, key.2) with key in Hhit1.
  destruct (Hhit1 pool connection [connection] Hm2 Hdead2 Hc2) as [Hr1 _].
  fold r1 in Hr1.
  split; [by rewrite Hr1|].
  destruct (get_cached_connection_cases r1.1.2 key.1 key.2 timeout r1.2)
    as (Hhit2 & _).
  cbn zeta in Hhit2. change (key.1, key.2) with key in Hhit2.
  destruct (Hhit2 [] connection []) as [Hr2 _].
  - rewrite Hr1. simpl. by rewrite lookup_insert_eq.
  - constructor.
  - rewrite Hr1. simpl. by rewrite closed_touch.
  - fold r2 in Hr2. rewrite Hr2. simpl. split; [done|].
    by rewrite lookup_insert_eq.
Qed.

(** * The lock

    [BaseBackend._create_lock] returns a [threading.Lock]: [acquire] of a
    lock that is held never returns, [release] of a lock that is not held
    is an error.  The methods are given again with the lock taken and
    released where the source does it.  The history of the lock records, in
    program order, the operations on the lock, the calls of [touch] and
    [close] and the calls of [get_new_connection]. *)

Inductive event : Type :=
  | LockAcquire
  | LockRelease
  | ConnectionCall (c : call)
  | NewConnectionCall.

Record Lock : Type := mkLock {
  locked : bool;
  history : list event
}.

(** How a piece of code using the lock goes on. *)
Inductive progress (A : Type) : Type :=
  | Proceeds (a : A)
  | Blocks
  | ReleaseError.
Arguments Proceeds {A} a.
Arguments Blocks {A}.
Arguments ReleaseError {A}.

#[local] Instance progress_bind : MBind progress := λ A B f x,
  match x with
  | Proceeds a => f a
  | Blocks => Blocks
  | ReleaseError => ReleaseError
  end.

(** [BaseBackend._create_lock]: [return _threading.Lock()]. *)
Definition _create_lock : Lock := {| locked := false; history := [] |}.

Definition Lock_acquire (l : Lock) : progress Lock :=
  if locked l then Blocks
  else Proceeds {| locked := true; history := history l ++ [LockAcquire] |}.

Definition Lock_release (l : Lock) : progress Lock :=
  if locked l
  then Proceeds {| locked := false; history := history l ++ [LockRelease] |}
  else ReleaseError.

(** A call made while the lock is in state [locked l]. *)
Definition record (e : event) (l : Lock) : Lock :=
  {| locked := locked l; history := history l ++ [e] |}.

(** [get_cached_connection]: [return con] runs the [finally] clause, and
    [get_new_connection] is called after it. *)
Definition locked_get_cached_connection (self : BaseBackend)
    (address : Address) (certificate : Certificate) (timeout : option Timeout)
    (w : world) (l : Lock)
    : progress (outcome conn * BaseBackend * world * Lock) :=
  let key := (address, certificate) in
  l1 ← Lock_acquire l;
  match _connections self !! key with
  | Some pool =>
      match pop_live pool w with
      | (Some con, pool') =>
          l2 ← Lock_release (record (ConnectionCall (Touch con)) l1);
          Proceeds (Return con,
                    with_connections (<[key := pool']> (_connections self)) self,
                    touch con w, l2)
      | (None, pool') =>
          l2 ← Lock_release l1;
          let '(r, w') := get_new_connection address certificate timeout w in
          Proceeds (r, with_connections (<[key := pool']> (_connections self)) self,
                    w', record NewConnectionCall l2)
      end
  | None =>
      l2 ← Lock_release l1;
      let '(r, w') := get_new_connection address certificate timeout w in
      Proceeds (r, self, w', record NewConnectionCall l2)
  end.

(** [release]: the lock is taken inside the two tests, and
    [connection.close()] comes after the [try] statement. *)
Definition locked_release (self : BaseBackend) (connection : conn) (w : world)
    (l : Lock) : progress (BaseBackend * world * Lock) :=
  if negb (closed connection w) then
    if pooling_enabled self then
      l1 ← Lock_acquire l;
      let key := key_of connection w in
      let '(pool, m) := setdefault key (_connections self) in
      if has_room self pool then
        l2 ← Lock_release (record (ConnectionCall (Touch connection)) l1);
        Proceeds (with_connections (<[key := pool ++ [connection]]> m) self,
                  touch connection w, l2)
      else
        l2 ← Lock_release l1;
        Proceeds (with_connections m self, close connection w,
                  record (ConnectionCall (Close connection)) l2)
    else
      Proceeds (self, close connection w,
                record (ConnectionCall (Close connection)) l)
  else
    Proceeds (self, w, l).

Fixpoint locked_sweep (delta : Z) (pool new_pool : list conn) (w : world)
    (l : Lock) : list conn * world * Lock :=
  match pool with
  | [] => (new_pool, w, l)
  | con :: pool' =>
      if negb (closed con w) then
        let '(outdated, w1) := is_outdated con delta w in
        if negb outdated then locked_sweep delta pool' (new_pool ++ [con]) w1 l
        else locked_sweep delta pool' new_pool (close con w1)
               (record (ConnectionCall (Close con)) l)
      else locked_sweep delta pool' new_pool w l
  end.

Fixpoint locked_outdate_items (delta : Z)
    (items : list (Address * Certificate * list conn))
    (self : BaseBackend) (w : world) (l : Lock)
    : outcome unit * BaseBackend * world * Lock :=
  match items with
  | [] => (Return tt, self, w, l)
  | (key, pool) :: items' =>
      let '(new_pool, w1, l1) := locked_sweep delta pool [] w l in
      match new_pool with
      | _ :: _ =>
          locked_outdate_items delta items'
            (with_connections (<[key := new_pool]> (_connections self)) self)
            w1 l1
      | [] =>
          match _connections self !! key with
          | Some _ =>
              locked_outdate_items delta items'
                (with_connections (delete key (_connections self)) self) w1 l1
          | None => (Raise KeyError, self, w1, l1)
          end
      end
  end.

(** [outdate]: the whole body is inside [try: ... finally:]. *)
Definition locked_outdate (self : BaseBackend) (delta : Z) (w : world)
    (l : Lock) : progress (outcome unit * BaseBackend * world * Lock) :=
  l1 ← Lock_acquire l;
  let '(r, self', w', l2) :=
    locked_outdate_items delta (map_to_list (_connections self)) self w l1 in
  l3 ← Lock_release l2;
  Proceeds (r, self', w', l3).

(** ** Properties of the lock *)

Implicit Types (l : Lock).

(** The sweep with the lock is the sweep, and its history grows by the
    calls of [close] that the world's log grows by. *)
Lemma locked_sweep_spec delta pool : ∀ new_pool w l,
  ∃ new,
    locked_sweep delta pool new_pool w l
    = ((sweep delta pool new_pool w).1, (sweep delta pool new_pool w).2,
       {| locked := locked l;
          history := history l ++ (ConnectionCall <$> new) |})
    ∧ calls (sweep delta pool new_pool w).2 = calls w ++ new.
Proof.
  induction pool as [|con pool IH]; intros new_pool w l; simpl.
  - exists []. simpl. rewrite !app_nil_r. by destruct l.
  - destruct (closed con w); simpl; [apply IH|].
    destruct (now w - last_use (heap w con) >? delta); simpl; [|apply IH].
    destruct (IH new_pool (close con w) (record (ConnectionCall (Close con)) l))
      as (new & -> & ->).
    exists (Close con :: new). simpl. by rewrite <-!(assoc_L (++)).
Qed.

Lemma locked_outdate_items_spec delta items : ∀ self w l,
  ∃ new,
    locked_outdate_items delta items self w l
    = (outdate_items delta items self w,
       {| locked := locked l;
          history := history l ++ (ConnectionCall <$> new) |})
    ∧ calls (outdate_items delta items self w).2 = calls w ++ new.
Proof.
  induction items as [|[key pool] items IH]; intros self w l; simpl.
  - exists []. simpl. rewrite !app_nil_r. by destruct l.
  - destruct (locked_sweep_spec delta pool [] w l) as (new1 & -> & Hcalls1).
    destruct (sweep delta pool [] w) as [new_pool w1]. simpl in *.
    assert (∀ self1,
      ∃ new,
        locked_outdate_items delta items self1 w1
          {| locked := locked l;
             history := history l ++ (ConnectionCall <$> new1) |}
        = (outdate_items delta items self1 w1,
           {| locked := locked l;
              history := history l ++ (ConnectionCall <$> new) |})
        ∧ calls (outdate_items delta items self1 w1).2 = calls w ++ new)
      as Hrest.
    { intros self1.
      destruct (IH self1 w1 {| locked := locked l;
                               history := history l ++ (ConnectionCall <$> new1) |})
        as (new2 & -> & ->).
      exists (new1 ++ new2). simpl.
      by rewrite Hcalls1, fmap_app, <-!(assoc_L (++)). }
    destruct new_pool as [|c new_pool]; [|apply Hrest].
    destruct (_connections self !! key); [apply Hrest|].
    exists new1. by simpl.
Qed.

(** X13.  The lock is released on every path.  Called with the lock
    free, each of the three methods returns (it does not block and no
    release fails) with the lock free again, also when
    [get_new_connection] raises, and does to the pool and to the world what
    the method without the lock does. *)
Theorem lock_released self w l :
  locked l = false →
  (∀ address certificate timeout,
      ∃ l', locked_get_cached_connection self address certificate timeout w l
            = Proceeds (get_cached_connection self address certificate timeout w, l')
            ∧ locked l' = false) ∧
  (∀ connection,
      ∃ l', locked_release self connection w l
            = Proceeds (release self connection w, l')
            ∧ locked l' = false) ∧
  (∀ delta,
      ∃ l', locked_outdate self delta w l = Proceeds (outdate self delta w, l')
            ∧ locked l' = false).
Proof.
  intros Hfree. split; [|split].
  - intros address certificate timeout.
    unfold locked_get_cached_connection, get_cached_connection, Lock_acquire.
    rewrite Hfree. simpl.
    destruct (_connections self !! (address, certificate)) as [pool|].
    + destruct (pop_live pool w) as [[con|] pool']; simpl; [by eexists|].
      destruct (get_new_connection address certificate timeout w). by eexists.
    + simpl. destruct (get_new_connection address certificate timeout w).
      by eexists.
  - intros connection. unfold locked_release, release, Lock_acquire.
    destruct (negb (closed connection w)); [|by eexists].
    destruct (pooling_enabled self); [|by eexists].
    rewrite Hfree. simpl.
    destruct (setdefault (key_of connection w) (_connections self)) as [pool m].
    destruct (has_room self pool); simpl; by eexists.
  - intros delta. unfold locked_outdate, outdate, Lock_acquire.
    rewrite Hfree. simpl.
    destruct (locked_outdate_items_spec delta (map_to_list (_connections self))
                self w {| locked := true; history := history l ++ [LockAcquire] |})
      as (new & -> & _).
    destruct (outdate_items delta (map_to_list (_connections self)) self w)
      as [[r self'] w']. simpl. by eexists.
Qed.

(** X14.  Where the calls fall with respect to the lock in an acquire
    and in a release.  A connection is touched while the lock is held.
    [get_new_connection] is called after the lock was released.  A surplus
    connection is closed after the lock was released; with pooling disabled
    it is closed without the lock being taken at all; nothing happens for a
    closed connection. *)
Theorem calls_around_lock self w l :
  locked l = false →
  (∀ address certificate timeout r l',
      locked_get_cached_connection self address certificate timeout w l
      = Proceeds (r, l') →
      (∃ con, r.1.1 = Return con
              ∧ history l' = history l ++ [LockAcquire;
                                           ConnectionCall (Touch con);
                                           LockRelease])
      ∨ history l' = history l ++ [LockAcquire; LockRelease; NewConnectionCall]) ∧
  (∀ connection r l',
      locked_release self connection w l = Proceeds (r, l') →
      history l'
      = history l ++
        if closed connection w then []
        else if negb (pooling_enabled self)
             then [ConnectionCall (Close connection)]
        else if has_room self
                  (default [] (_connections self !! key_of connection w))
             then [LockAcquire; ConnectionCall (Touch connection); LockRelease]
        else [LockAcquire; LockRelease; ConnectionCall (Close connection)]).
Proof.
  intros Hfree. split.
  - intros address certificate timeout r l'.
    unfold locked_get_cached_connection, Lock_acquire.
    rewrite Hfree. simpl.
    destruct (_connections self !! (address, certificate)) as [pool|].
    + destruct (pop_live pool w) as [[con|] pool']; simpl.
      * intros [= <- <-]. left. exists con. simpl.
        by rewrite <-!(assoc_L (++)).
      * destruct (get_new_connection address certificate timeout w).
        intros [= <- <-]. right. simpl. by rewrite <-!(assoc_L (++)).
    + simpl. destruct (get_new_connection address certificate timeout w).
      intros [= <- <-]. right. simpl. by rewrite <-!(assoc_L (++)).
  - intros connection r l'. unfold locked_release, Lock_acquire, setdefault.
    destruct (closed connection w); simpl.
    { intros [= <- <-]. by rewrite app_nil_r. }
    destruct (pooling_enabled self); simpl; [|by intros [= <- <-]].
    rewrite Hfree. simpl.
    destruct (_connections self !! key_of connection w) as [pool|]; simpl;
      [destruct (has_room self pool)|destruct (has_room self [])]; simpl;
      intros [= <- <-]; simpl; by rewrite <-!(assoc_L (++)).
Qed.

(** X15.  [outdate] makes all its calls holding the lock: every call
    added to the world's log, the [close] of each outdated connection, lies
    between taking the lock and releasing it. *)
Theorem outdate_closes_under_lock self delta w l r l' :
  locked l = false →
  locked_outdate self delta w l = Proceeds (r, l') →
  ∃ new,
    calls r.2 = calls w ++ new
    ∧ history l'
      = history l ++ [LockAcquire] ++ (ConnectionCall <$> new) ++ [LockRelease].
Proof.
  intros Hfree. unfold locked_outdate, Lock_acquire. rewrite Hfree. simpl.
  destruct (locked_outdate_items_spec delta (map_to_list (_connections self))
              self w {| locked := true; history := history l ++ [LockAcquire] |})
    as (new & -> & Hcalls).
  destruct (outdate_items delta (map_to_list (_connections self)) self w)
    as [[r0 self'] w']. simpl in *.
  intros [= <- <-]. exists new. simpl. split; [done|].
  by rewrite <-!(assoc_L (++)).
Qed.

(** ** Compositions *)

(** X17.  After [outdate] and before anything else changes, an acquire
    on a key that is still bound is served from the pool by the first
    connection of the key's list: nothing is skipped and
    [get_new_connection] is not called. *)
Theorem acquire_after_outdate self delta w address certificate timeout pool :
  let st := outdate self delta w in
  _connections st.1.2 !! (address, certificate) = Some pool →
  ∃ con rest,
    pool = con :: rest
    ∧ get_cached_connection st.1.2 address certificate timeout st.2
      = (Return con,
         with_connections
           (<[(address, certificate) := rest]> (_connections st.1.2)) st.1.2,
         touch con st.2).
Proof.
  intros st Hm.
  destruct (outdate_result_fresh self delta w _ pool Hm) as [Hne Hfresh].
  destruct pool as [|con rest]; [done|]. exists con, rest. split; [done|].
  destruct (get_cached_connection_cases st.1.2 address certificate timeout st.2)
    as (Hhit & _).
  destruct (Hhit [] con rest) as [-> _]; [done|constructor| |done].
  specialize (Hfresh con). unfold fresh in Hfresh.
  destruct (closed con (outdate self delta w).2) eqn:Hc; [|done].
  by discriminate Hfresh; left.
Qed.

(** X18.  Borrow and return.  When an acquire is served by connection
    [con] of the requested endpoint from a list that respects the pool size,
    releasing [con] right away stores it again: the key's list is then the
    part that was queued behind [con], followed by [con].  The closed
    connections that were queued before it are gone. *)
Theorem acquire_then_release self address certificate timeout w dead con rest :
  let key := (address, certificate) in
  let r := get_cached_connection self address certificate timeout w in
  _connections self !! key = Some (dead ++ con :: rest) →
  Forall (λ c, closed c w = true) dead → closed con w = false →
  key_of con w = key →
  has_room self rest = true →
  r.1.1 = Return con
  ∧ _connections (release r.1.2 con r.2).1 !! key = Some (rest ++ [con])
  ∧ (release r.1.2 con r.2).2 = touch con (touch con w).
Proof.
  intros key r Hm Hdead Hcon Hkey Hroom.
  destruct (get_cached_connection_cases self address certificate timeout w)
    as (Hhit & _).
  destruct (Hhit dead con rest Hm Hdead Hcon) as [Hr _]. fold key r in Hr.
  rewrite Hr. simpl. split; [done|].
  rewrite (release_stores
             (with_connections (<[key := rest]> (_connections self)) self)
             con (touch con w)).
  - rewrite key_of_touch, Hkey. simpl.
    rewrite !lookup_insert_eq. by simpl.
  - by rewrite closed_touch.
  - rewrite key_of_touch, Hkey. simpl. by rewrite lookup_insert_eq.
Qed.

(** The pool of [__init__] is filed and free of duplicates. *)
Lemma filed_init n use w : filed (BaseBackend_init n use) w.
Proof. intros key pool c Hm. simpl in Hm. by rewrite lookup_empty in Hm. Qed.

Lemma distinct_init n use : distinct (BaseBackend_init n use).
Proof. intros key pool Hm. simpl in Hm. by rewrite lookup_empty in Hm. Qed.

End Backend.

Arguments Proceeds {A} a.
Arguments Blocks {A}.
Arguments ReleaseError {A}.

(** * The statements at concrete pools

    Endpoints are pairs of numbers, the endpoint of every connection is
    [(7, 9)], and the pool is the one [__init__] makes, filled by calls of
    [release]. *)

Local Abbreviation w0 := (all_open 7%nat 9%nat 0).
Local Abbreviation init5 := (BaseBackend_init (Some DEFAULT_POOL_SIZE) true).
Local Abbreviation base_new := (BaseBackend_get_new_connection (Timeout := Z)).

(** C1 as stated does not hold.  Connection 1 is released at time 0 and
    then closed by its user.  [outdate] with ten units of grace, still at
    time 0, removes it from the pool although no time has passed since its
    last use, and makes no call of [close]. *)
Example outdate_drops_closed_connection :
  let st := run base_new [Release 1%nat; Environment (close 1%nat)] (init5, w0) in
  _connections st.1 !! (7%nat, 9%nat) = Some [1%nat] ∧
  (is_outdated 1%nat 10 st.2).1 = false ∧
  _connections (outdate st.1 10 st.2).1.2 !! (7%nat, 9%nat) = None ∧
  calls (outdate st.1 10 st.2).2 = calls st.2.
Proof. vm_compute. done. Qed.

(** C4 as stated does not hold.  Connection 1 is idle and not closed when
    connection 2 is released into the same bucket, which has room for five:
    the next acquire returns connection 1, and connection 2 stays idle. *)
Example acquire_returns_older_connection :
  let self := (release init5 1%nat w0).1 in
  let w := (release init5 1%nat w0).2 in
  let st := release self 2%nat w in
  let r := get_cached_connection base_new st.1 7%nat 9%nat None st.2 in
  closed 2%nat w = false ∧
  has_room self (default [] (_connections self !! key_of 2%nat w)) = true ∧
  r.1.1 = Return 1%nat ∧ r.1.1 ≠ Return 2%nat ∧
  _connections r.1.2 !! (7%nat, 9%nat) = Some [2%nat].
Proof. vm_compute. repeat split; done. Qed.

(** C6 on the code.  Connection 1 is released when the clock reads 100 and
    the backend is disposed of before the clock moves on: [__del__] returns
    normally, the connection is still in the pool and is not closed, and no
    [close] was called. *)
Example del_keeps_connection_released_now :
  let st := run base_new [Release 1%nat] (init5, all_open 7%nat 9%nat 100) in
  let r := BaseBackend_del st.1 st.2 in
  _connections st.1 !! (7%nat, 9%nat) = Some [1%nat] ∧
  r.1.1 = Return tt ∧
  _connections r.1.2 !! (7%nat, 9%nat) = Some [1%nat] ∧
  closed 1%nat r.2 = false ∧
  calls r.2 = [Touch 1%nat].
Proof. vm_compute. done. Qed.

(** Three acquires: a closed entry is skipped and the next one returned; the
    only entry is closed and the transport fails; the key has no list and
    the backend is the abstract one. *)
Lemma get_cached_connection_spec_witness :
  let w := close 1%nat w0 in
  let self := with_connections {[ (7%nat, 9%nat) := [1%nat; 2%nat; 3%nat] ]} init5 in
  let self1 := with_connections {[ (7%nat, 9%nat) := [1%nat] ]} init5 in
  (get_cached_connection base_new self 7%nat 9%nat None w
   = (Return 2%nat,
      with_connections (<[(7%nat, 9%nat) := [3%nat]]> (_connections self)) self,
      touch 2%nat w)
   ∧ calls (touch 2%nat w) = calls w ++ [Touch 2%nat]) ∧
  get_cached_connection (open_connection 5%nat (Some 111)) self1 7%nat 9%nat
    (Some 30) w
  = (Raise (SocketError 111),
     with_connections (<[(7%nat, 9%nat) := []]> (_connections self1)) self1, w) ∧
  get_cached_connection base_new init5 7%nat 9%nat None w
  = (Raise NotImplementedError, init5, w).
Proof.
  intros w self self1. split; [|split].
  - apply (proj1 (get_cached_connection_spec base_new self 7%nat 9%nat None w)
             [1%nat] 2%nat [3%nat]).
    + vm_compute. reflexivity.
    + repeat constructor.
    + reflexivity.
  - apply (proj1 (proj2 (get_cached_connection_spec
                           (open_connection 5%nat (Some 111)) self1
                           7%nat 9%nat (Some 30) w)) [1%nat]).
    + vm_compute. reflexivity.
    + repeat constructor.
  - apply (proj2 (proj2 (get_cached_connection_spec base_new init5
                           7%nat 9%nat None w))).
    vm_compute. reflexivity.
Defined.

Lemma release_closed_witness :
  closed 1%nat (close 1%nat w0) = true ∧
  release init5 1%nat (close 1%nat w0) = (init5, close 1%nat w0).
Proof. split; [reflexivity|apply release_closed; reflexivity]. Defined.

(** The pool holds one connection and its size is one. *)
Lemma release_surplus_witness :
  let self := with_connections {[ (7%nat, 9%nat) := [1%nat] ]}
                (BaseBackend_init (Some 1) true) in
  release self 2%nat w0 = (self, close 2%nat w0)
  ∧ closed 2%nat (close 2%nat w0) = true
  ∧ calls (close 2%nat w0) = calls w0 ++ [Close 2%nat].
Proof.
  intros self. apply (release_surplus self 2%nat w0 1).
  - reflexivity.
  - reflexivity.
  - lia.
  - vm_compute. discriminate.
Defined.

(** Connection 1 is closed, connection 2 is the last entry. *)
Lemma empty_bucket_stays_witness :
  let w := close 1%nat w0 in
  let self := with_connections {[ (7%nat, 9%nat) := [1%nat; 2%nat] ]} init5 in
  _connections (get_cached_connection base_new self 7%nat 9%nat None w).1.2
    !! (7%nat, 9%nat)
  = Some [].
Proof.
  intros w self.
  apply (proj1 (empty_bucket_stays base_new self 7%nat 9%nat None w)
           [1%nat] 2%nat).
  - vm_compute. reflexivity.
  - repeat constructor.
  - reflexivity.
Defined.

(** A pool of size one after two releases. *)
Lemma pool_bounded_witness :
  0 ≤ 1 ∧
  _connections
    (run base_new [Release 1%nat; Release 2%nat]
       (BaseBackend_init (Some 1) true, w0)).1 !! (7%nat, 9%nat)
  = Some [1%nat] ∧
  Z.of_nat (length [1%nat]) ≤ 1.
Proof.
  split; [lia|]. split; [vm_compute; reflexivity|].
  apply (proj1 (pool_bounded base_new) 1 true
           [Release 1%nat; Release 2%nat] w0 (7%nat, 9%nat) [1%nat]).
  - lia.
  - vm_compute. reflexivity.
Defined.

(** A disabled pool after a release and an acquire that opens connection 5. *)
Lemma pooling_disabled_witness :
  let st := run (Timeout := Z) (open_connection 5%nat None)
              [Release 1%nat; Acquire 7%nat 9%nat None]
              (BaseBackend_init (Some 0) true, w0) in
  closed 5%nat st.2 = false ∧
  release st.1 5%nat st.2 = (st.1, close 5%nat st.2).
Proof.
  intros st. split; [reflexivity|].
  apply (proj2 (proj2 (pooling_disabled (open_connection 5%nat None) true
                         [Release 1%nat; Acquire 7%nat 9%nat None] w0))).
  reflexivity.
Defined.

(** Release into the empty pool, then acquire. *)
Lemma release_then_acquire_witness :
  closed 1%nat w0 = false ∧
  has_room (Address := nat) (Certificate := nat) init5 [] = true ∧
  get_cached_connection base_new (release init5 1%nat w0).1 7%nat 9%nat None
    (release init5 1%nat w0).2
  = (Return 1%nat,
     with_connections
       (<[(7%nat, 9%nat) := []]> (_connections (release init5 1%nat w0).1))
       (release init5 1%nat w0).1,
     touch 1%nat (touch 1%nat w0)).
Proof.
  split; [reflexivity|]. split; [reflexivity|].
  apply (proj1 (proj2 (release_then_acquire base_new init5 1%nat w0 None
                         eq_refl eq_refl))).
  constructor.
Defined.

(** * Further statements at concrete pools *)

Local Abbreviation key79 := (7%nat, 9%nat).
Local Abbreviation one_idle :=
  (with_connections {[ (7%nat, 9%nat) := [1%nat] ]} init5).

(** An empty list left by an acquire survives the release of a closed
    connection. *)
Lemma release_binds_no_empty_list_witness :
  _connections (with_connections {[ key79 := [] ]} init5) !! key79 = Some [].
Proof.
  apply (release_binds_no_empty_list (with_connections {[ key79 := [] ]} init5)
           1%nat (close 1%nat w0) key79).
  vm_compute. reflexivity.
Defined.

Lemma release_nonpositive_pool_size_witness :
  release (BaseBackend_init (Some (-3)) true) 1%nat w0
  = (BaseBackend_init (Some (-3)) true, close 1%nat w0).
Proof.
  apply (release_nonpositive_pool_size _ 1%nat w0 (-3));
    [reflexivity|lia|reflexivity].
Defined.

(** Two releases into the pool of [__init__]. *)
Lemma filed_preserved_witness :
  filed (release (release init5 1%nat w0).1 2%nat (release init5 1%nat w0).2).1
        (release (release init5 1%nat w0).1 2%nat (release init5 1%nat w0).2).2.
Proof.
  apply (proj1 (filed_preserved base_new
                  (release init5 1%nat w0).1 (release init5 1%nat w0).2
                  (proj1 (filed_preserved base_new init5 w0
                            (filed_init _ _ _)) 1%nat)) 2%nat).
Defined.

Lemma distinct_preserved_witness :
  distinct (release init5 1%nat w0).1.
Proof.
  apply (proj2 (proj2 (distinct_preserved base_new init5 w0
                         (distinct_init _ _))) 1%nat).
  vm_compute. intros Hin. inversion Hin.
Defined.

(** One idle connection, used at time 0, swept at time 0 with ten units of
    grace. *)
Lemma outdate_fresh_pool_witness :
  outdate one_idle 10 w0 = (Return tt, one_idle, w0).
Proof.
  apply outdate_fresh_pool. intros key pool Hm.
  cbn [_connections with_connections] in Hm.
  apply lookup_singleton_Some in Hm as [<- <-].
  split; [discriminate|]. intros c Hc. reflexivity.
Defined.

(** Connection 1 is closed and dropped, connection 2 stays. *)
Lemma outdate_leaves_fresh_witness :
  let self := with_connections {[ key79 := [1%nat; 2%nat] ]} init5 in
  let w := close 1%nat w0 in
  closed 2%nat (outdate self 10 w).2 = false
  ∧ now (outdate self 10 w).2 - last_use (heap (outdate self 10 w).2 2%nat) ≤ 10.
Proof.
  intros self w. apply (outdate_leaves_fresh self 10 w 2%nat).
  exists key79, [2%nat]. split; [vm_compute; reflexivity|]. by left.
Defined.

Lemma released_connection_survives_outdate_witness :
  ∃ pool,
    _connections (outdate (release init5 1%nat w0).1 0
                    (release init5 1%nat w0).2).1.2 !! key_of 1%nat w0
    = Some pool
    ∧ 1%nat ∈ pool
    ∧ closed 1%nat (outdate (release init5 1%nat w0).1 0
                      (release init5 1%nat w0).2).2 = false.
Proof.
  apply (released_connection_survives_outdate init5 1%nat w0 0);
    [reflexivity|reflexivity|lia].
Defined.

Lemma release_twice_witness :
  let st1 := release init5 1%nat w0 in
  let st2 := release st1.1 1%nat st1.2 in
  let r1 := get_cached_connection base_new st2.1 7%nat 9%nat None st2.2 in
  let r2 := get_cached_connection base_new r1.1.2 7%nat 9%nat None r1.2 in
  _connections st2.1 !! key79 = Some [1%nat; 1%nat]
  ∧ (Forall (λ c, closed c w0 = true) [] →
     r1.1.1 = Return 1%nat ∧ r2.1.1 = Return 1%nat
     ∧ _connections r2.1.2 !! key79 = Some []).
Proof.
  apply (release_twice base_new init5 1%nat w0 None); reflexivity.
Defined.

Lemma lock_released_witness :
  ∃ l', locked_outdate one_idle 0 (all_open 7%nat 9%nat 5) _create_lock
        = Proceeds (outdate one_idle 0 (all_open 7%nat 9%nat 5), l')
        ∧ locked l' = false.
Proof.
  apply (proj2 (proj2 (lock_released base_new one_idle (all_open 7%nat 9%nat 5)
                         _create_lock eq_refl)) 0).
Defined.

(** A release into a pool of size one that is full. *)
Lemma calls_around_lock_witness :
  let self := with_connections {[ key79 := [1%nat] ]}
                (BaseBackend_init (Some 1) true) in
  history (mkLock false [LockAcquire; LockRelease; ConnectionCall (Close 2%nat)])
  = history _create_lock ++
    if closed 2%nat w0 then []
    else if negb (pooling_enabled self)
         then [ConnectionCall (Close 2%nat)]
    else if has_room self (default [] (_connections self !! key_of 2%nat w0))
         then [LockAcquire; ConnectionCall (Touch 2%nat); LockRelease]
    else [LockAcquire; LockRelease; ConnectionCall (Close 2%nat)].
Proof.
  intros self.
  apply (proj2 (calls_around_lock base_new self w0 _create_lock eq_refl)
           2%nat (self, close 2%nat w0)).
  vm_compute. reflexivity.
Defined.

(** An outdated connection is closed between [acquire] and [release]. *)
Lemma outdate_closes_under_lock_witness :
  ∃ new,
    calls (outdate one_idle 0 (all_open 7%nat 9%nat 5)).2
    = calls (all_open 7%nat 9%nat 5) ++ new
    ∧ history (mkLock false [LockAcquire; ConnectionCall (Close 1%nat);
                             LockRelease])
      = history _create_lock ++ [LockAcquire] ++ (ConnectionCall <$> new)
        ++ [LockRelease].
Proof.
  apply (outdate_closes_under_lock one_idle 0 (all_open 7%nat 9%nat 5)
           _create_lock (outdate one_idle 0 (all_open 7%nat 9%nat 5))
           (mkLock false [LockAcquire; ConnectionCall (Close 1%nat);
                          LockRelease])).
  - reflexivity.
  - vm_compute. reflexivity.
Defined.

(** Disposal five units after the last use. *)
Lemma BaseBackend_del_after_use_witness :
  _connections (BaseBackend_del one_idle (all_open 7%nat 9%nat 5)).1.2 = ∅
  ∧ ∀ c, idle one_idle c →
         closed c (BaseBackend_del one_idle (all_open 7%nat 9%nat 5)).2 = true.
Proof.
  apply (BaseBackend_del_after_use one_idle (all_open 7%nat 9%nat 5)).
  intros c _. simpl. lia.
Defined.

Lemma acquire_after_outdate_witness :
  let self := with_connections {[ key79 := [1%nat; 2%nat] ]} init5 in
  let st := outdate self 10 (close 1%nat w0) in
  ∃ con rest,
    [2%nat] = con :: rest
    ∧ get_cached_connection base_new st.1.2 7%nat 9%nat None st.2
      = (Return con,
         with_connections (<[key79 := rest]> (_connections st.1.2)) st.1.2,
         touch con st.2).
Proof.
  intros self.
  apply (acquire_after_outdate base_new self 10 (close 1%nat w0)
           7%nat 9%nat None [2%nat]).
  vm_compute. reflexivity.
Defined.

Lemma acquire_then_release_witness :
  let self := with_connections {[ key79 := [1%nat; 2%nat; 3%nat] ]} init5 in
  let w := close 1%nat w0 in
  let r := get_cached_connection base_new self 7%nat 9%nat None w in
  r.1.1 = Return 2%nat
  ∧ _connections (release r.1.2 2%nat r.2).1 !! key79 = Some [3%nat; 2%nat]
  ∧ (release r.1.2 2%nat r.2).2 = touch 2%nat (touch 2%nat w).
Proof.
  intros self w.
  apply (acquire_then_release base_new self 7%nat 9%nat None w
           [1%nat] 2%nat [3%nat]).
  - vm_compute. reflexivity.
  - repeat constructor.
  - reflexivity.
  - reflexivity.
  - reflexivity.
Defined.
